(** * The Task Store of the Marathon Agent (src/db_schema.py)

    A shallow embedding of [DatabaseManager]: the three SQLite tables
    ([tasks], [task_states], [task_data]) as lists of rows in rowid order,
    and the four public operations [create_task], [update_task_state],
    [get_task] and [list_tasks] as functions on the database.  Each
    operation is a transaction written in a small monad that threads the
    database, counts the SQL statements already executed and lets one of
    them fail, so that the [try ... except] clause of every operation can
    be modelled as it is written.

    Conventions of the embedding.
    - A timestamp is the text [time.strftime("%Y-%m-%d %H:%M:%S")]; the
      embedding identifies it with the whole number of seconds that
      SQLite's [strftime('%s', .)] returns for it (for four-digit years
      text order and numeric order agree).
    - A column that holds [json.dumps] of a value is kept as the value:
      [json.loads] after [json.dumps] is the identity on them.  The
      [results] column, which a transition indexes, is kept as any JSON
      document ([pyjson]); [parameters] and [error_details] are mappings
      and [next_states] is a list of strings.
    - The values of the [Dict[str, Any]] arguments are scalars ([jval]);
      a key of the sub-dictionaries of [task_data] is either absent or
      carries a value of its type.
    - ORDER BY leaves rows with equal keys in the order of the scan, the
      order of insertion, as SQLite's sorter does. *)

From stdpp Require Import base option strings gmap list sorting pretty.
From Stdlib Require Import ZArith Lia.

Local Open Scope Z_scope.

(** ** Python and SQLite values *)

(** Scalar values of the [Dict[str, Any]] arguments. *)
Inductive jval :=
| JNull
| JBool (b : bool)
| JNum (z : Z)
| JStr (s : string).

Global Instance jval_eq_dec : EqDecision jval.
Proof. solve_decision. Defined.

Abbreviation pydict := (gmap string jval).

(** A JSON document kept in a TEXT column: a mapping, or anything else
    (a list, or a scalar such as [null]). *)
Inductive pyjson :=
| JMap (m : pydict)
| JList (l : list jval)
| JScalar (v : jval).

Definition mapping_of (j : pyjson) : pydict :=
  match j with
  | JMap m => m
  | _ => ∅
  end.

Definition timestamp := Z.

(** Python truthiness, as used by [if result:], [bool(error)],
    [if workflow_id:] and [error and error.get('has_error')]. *)
Definition truthy_str (s : string) : bool := negb (String.eqb s "").

Definition truthy_opt_str (o : option string) : bool :=
  match o with
  | Some s => truthy_str s
  | None => false
  end.

Definition truthy_dict (d : pydict) : bool := negb (bool_decide (d = ∅)).

Definition truthy_opt_dict (o : option pydict) : bool :=
  match o with
  | Some d => truthy_dict d
  | None => false
  end.

Definition truthy_jval (v : jval) : bool :=
  match v with
  | JNull => false
  | JBool b => b
  | JNum z => negb (Z.eqb z 0)
  | JStr s => truthy_str s
  end.

Definition truthy_opt_jval (o : option jval) : bool :=
  match o with
  | Some v => truthy_jval v
  | None => false
  end.

(** A value bound to a TEXT column: [None] is NULL, an integer is stored
    as its decimal text (column affinity), a Python bool is the integer
    1 or 0.  Whether an integer can be bound at all is [message_bindable]
    below. *)
Definition bind_text (o : option jval) : option string :=
  match o with
  | None | Some JNull => None
  | Some (JBool b) => Some (if b then "1" else "0")
  | Some (JNum z) => Some (pretty z)
  | Some (JStr s) => Some s
  end.

(** An integer bound to a statement must fit SQLite's 64-bit INTEGER,
    otherwise the [sqlite3] module raises [OverflowError]. *)
Definition int64 (z : Z) : Prop := -2 ^ 63 ≤ z < 2 ^ 63.

Global Instance int64_dec z : Decision (int64 z).
Proof. unfold int64. apply _. Defined.

(** ** The three tables *)

Record task_row := TaskRow {
  task_id : string;
  workflow_id : string;
  workflow_name : string;
  workflow_version : string;
  current_state : string;
  completion_state : string;
  created_at : timestamp;
  updated_at : timestamp;
  creator_id : string;
  priority : string;
  max_retries : Z;
  retry_count : Z;
  timeout_seconds : Z;
  is_complete : bool;
  has_error : bool
}.

Record state_row := StateRow {
  st_id : Z;
  st_task_id : string;
  state_name : string;
  entered_at : timestamp;
  exited_at : option timestamp;
  duration_seconds : option Z;
  result : option string;
  st_has_error : bool;
  error_message : option string
}.

Record data_row := DataRow {
  td_task_id : string;
  prompt : string;
  context : string;
  parameters : pydict;
  results_json : pyjson;
  next_states : list string;
  error_details : option pydict
}.

(** The [results] mapping of a payload row. *)
Definition results (d : data_row) : pydict := mapping_of (results_json d).

Record DB := MkDB {
  tasks : list task_row;
  task_states : list state_row;
  task_data : list data_row
}.

Definition empty_db : DB := MkDB [] [] [].

(** ** Exceptions, storage faults and the transaction monad *)

Inductive exn :=
| OperationalError
| IntegrityError
| OverflowError
| TypeError
| UnboundLocalError.

Inductive outcome (A : Type) :=
| Return (a : A)
| Raise (e : exn).
Arguments Return {A} a.
Arguments Raise {A} e.

(** Where the storage layer fails during one operation: nowhere, in
    [sqlite3.connect], or in the n-th statement the operation runs
    (statements are counted from 0; [commit] counts as one). *)
Inductive fault :=
| NoFault
| ConnectFault
| StmtFault (n : nat).

Definition fault_hits (f : fault) (n : nat) : bool :=
  match f with
  | StmtFault k => Nat.eqb k n
  | _ => false
  end.

Definition Txn (A : Type) : Type := fault → nat → DB → outcome (A * nat * DB).

Global Instance Txn_ret : MRet Txn := λ A a _ n db, Return (a, n, db).

Global Instance Txn_bind : MBind Txn :=
  λ A B k m f n db,
    match m f n db with
    | Return (a, n', db') => k a f n' db'
    | Raise e => Raise e
    end.

Definition raise {A} (e : exn) : Txn A := λ _ _ _, Raise e.

(** [cursor.execute]: the statement fails if the fault is scheduled at
    it, and may raise an exception of its own (a violated constraint). *)
Definition execute {A} (q : DB → outcome (A * DB)) : Txn A :=
  λ f n db,
    if fault_hits f n then Raise OperationalError
    else match q db with
         | Return (a, db') => Return (a, S n, db')
         | Raise e => Raise e
         end.

(** ** SQL statements *)

(** [SELECT ... FROM tasks WHERE task_id = ?] followed by [fetchone]. *)
Definition find_task (tid : string) (db : DB) : option task_row :=
  head (filter (λ t, task_id t = tid) (tasks db)).

Definition find_data (tid : string) (db : DB) : option data_row :=
  head (filter (λ d, td_task_id d = tid) (task_data db)).

Definition select_current (tid : string) (db : DB)
  : outcome (option (string * string) * DB) :=
  Return ((λ t, (current_state t, completion_state t)) <$> find_task tid db, db).

(** [strftime('%s', t)] and [ROUND] on the integer difference. *)
Definition strftime_s (t : timestamp) : Z := t.
Definition sql_round (z : Z) : Z := z.

Definition is_open_in (tid cur : string) (r : state_row) : Prop :=
  st_task_id r = tid ∧ state_name r = cur ∧ exited_at r = None.

Global Instance is_open_in_dec tid cur r : Decision (is_open_in tid cur r).
Proof. unfold is_open_in. apply _. Defined.

Definition seal_row (now : timestamp) (res : option string) (r : state_row)
  : state_row :=
  StateRow (st_id r) (st_task_id r) (state_name r) (entered_at r)
    (Some now)
    (Some (sql_round (strftime_s now - strftime_s (entered_at r))))
    res
    (st_has_error r) (error_message r).

(** [UPDATE task_states SET exited_at = ?, duration_seconds = ROUND(...),
    result = ? WHERE task_id = ? AND state_name = ? AND exited_at IS NULL] *)
Definition seal_states (now : timestamp) (res : option string)
    (tid cur : string) (l : list state_row) : list state_row :=
  (λ r, if decide (is_open_in tid cur r) then seal_row now res r else r) <$> l.

Definition update_seal now res tid cur (db : DB) : outcome (unit * DB) :=
  Return (tt, MkDB (tasks db) (seal_states now res tid cur (task_states db))
                   (task_data db)).

(** The AUTOINCREMENT key: one more than the largest rowid so far; rows
    are never deleted, so one more than the number of rows. *)
Definition next_id (l : list state_row) : Z := Z.of_nat (length l) + 1.

(** [INSERT INTO task_states (task_id, state_name, entered_at, has_error,
    error_message)]; [task_id] and [state_name] are NOT NULL. *)
Definition insert_state (tid state : option string) (now : timestamp)
    (err : bool) (msg : option string) (db : DB) : outcome (unit * DB) :=
  match tid, state with
  | Some tid, Some state =>
      Return (tt, MkDB (tasks db)
                    (task_states db ++
                       [StateRow (next_id (task_states db)) tid state now
                          None None None err msg])
                    (task_data db))
  | _, _ => Raise IntegrityError
  end.

(** [UPDATE tasks SET current_state = ?, updated_at = ?, is_complete = ?,
    has_error = ? WHERE task_id = ?] *)
Definition set_task (new_state : string) (now : timestamp)
    (complete err : bool) (t : task_row) : task_row :=
  TaskRow (task_id t) (workflow_id t) (workflow_name t) (workflow_version t)
    new_state (completion_state t) (created_at t) now
    (creator_id t) (priority t) (max_retries t) (retry_count t)
    (timeout_seconds t) complete err.

Definition update_task tid new_state now complete err (db : DB)
  : outcome (unit * DB) :=
  Return (tt, MkDB ((λ t, if decide (task_id t = tid)
                          then set_task new_state now complete err t else t)
                      <$> tasks db)
                   (task_states db) (task_data db)).

Definition set_error_details (e : pydict) (d : data_row) : data_row :=
  DataRow (td_task_id d) (prompt d) (context d) (parameters d)
    (results_json d) (next_states d) (Some e).

Definition set_results (j : pyjson) (d : data_row) : data_row :=
  DataRow (td_task_id d) (prompt d) (context d) (parameters d) j
    (next_states d) (error_details d).

Definition update_data (tid : string) (g : data_row → data_row) (db : DB)
  : outcome (unit * DB) :=
  Return (tt, MkDB (tasks db) (task_states db)
                   ((λ d, if decide (td_task_id d = tid) then g d else d)
                      <$> task_data db)).

(** [SELECT results FROM task_data WHERE task_id = ?] and [json.loads]
    of the text, which [json.dumps] wrote and is never empty. *)
Definition select_results (tid : string) (db : DB)
  : outcome (option pyjson * DB) :=
  Return (results_json <$> find_data tid db, db).

(** The value bound to [error_message]: [error.get('message') if error
    else None].  A Python integer outside the 64-bit range cannot be
    bound. *)
Definition error_message_of (error : option pydict) : option jval :=
  if truthy_opt_dict error then default ∅ error !! "message" else None.

Definition message_bindable (o : option jval) : bool :=
  match o with
  | Some (JNum z) => bool_decide (int64 z)
  | _ => true
  end.

(** [results[current_state] = result] under [if result:]: an item
    assignment, which only a mapping supports. *)
Definition assign_result (cur : string) (res : option string) (j : pyjson)
  : option pyjson :=
  if truthy_opt_str res then
    match j with
    | JMap m => Some (JMap (<[cur := JStr (default "" res)]> m))
    | _ => None
    end
  else Some j.

Definition commit (db : DB) : outcome (unit * DB) := Return (tt, db).

(** ** The argument of [create_task]

    [task_data] is a dictionary of dictionaries; a field is [None] when
    the key is absent, and an absent sub-dictionary ([.get(k, {})]) is the
    record whose fields are all [None]. *)

Record workflow_info := WorkflowInfo {
  wf_name : option string;
  wf_version : option string;
  wf_completion_state : option string;
  wf_next_states : option (list string)
}.

Record metadata_info := MetadataInfo {
  md_creator_id : option string;
  md_priority : option string;
  md_max_retries : option Z;
  md_timeout_seconds : option Z
}.

Record data_info := DataInfo {
  d_prompt : option string;
  d_context : option string;
  d_parameters : option pydict;
  d_results : option pyjson
}.

Record task_input := TaskInput {
  in_task_id : option string;
  in_workflow_id : option string;
  in_state : option string;
  in_workflow : workflow_info;
  in_metadata : metadata_info;
  in_data : data_info;
  in_error : pydict
}.

(** The PRIMARY KEY check of an insert. *)
Definition pk_taken (key : string) (keys : list string) : bool :=
  bool_decide (key ∈ keys).
Global Arguments pk_taken : simpl never.

Definition bindable (z : Z) : bool := bool_decide (int64 z).
Global Arguments bindable : simpl never.

(** [INSERT INTO tasks (...)]: [task_id] is the primary key,
    [workflow_id] and [current_state] are NOT NULL; [retry_count],
    [is_complete] and [has_error] take their column defaults.  SQLite
    accepts a NULL in a TEXT primary key: such a row is not representable
    in [task_row], and the insert into [task_states] that follows rejects
    the NULL, so the transaction is rolled back in any case. *)
Definition insert_task (inp : task_input) (now : timestamp) (db : DB)
  : outcome (unit * DB) :=
  if bindable (default 3 (md_max_retries (in_metadata inp)))
     && bindable (default 120 (md_timeout_seconds (in_metadata inp)))
  then
  match in_workflow_id inp, in_state inp with
  | Some wid, Some state =>
      match in_task_id inp with
      | Some tid =>
          if pk_taken tid (task_id <$> tasks db) then Raise IntegrityError
          else
            Return (tt, MkDB
              (tasks db ++
                 [TaskRow tid wid
                    (default "unknown" (wf_name (in_workflow inp)))
                    (default "1.0" (wf_version (in_workflow inp)))
                    state
                    (default "completion" (wf_completion_state (in_workflow inp)))
                    now now
                    (default "system" (md_creator_id (in_metadata inp)))
                    (default "normal" (md_priority (in_metadata inp)))
                    (default 3 (md_max_retries (in_metadata inp)))
                    0
                    (default 120 (md_timeout_seconds (in_metadata inp)))
                    false false])
              (task_states db) (task_data db))
      | None => Return (tt, db)
      end
  | _, _ => Raise IntegrityError
  end
  else Raise OverflowError.

(** [INSERT INTO task_data (...)]: [task_id] is the primary key. *)
Definition insert_data (inp : task_input) (db : DB) : outcome (unit * DB) :=
  match in_task_id inp with
  | Some tid =>
      if pk_taken tid (td_task_id <$> task_data db) then Raise IntegrityError
      else
        Return (tt, MkDB (tasks db) (task_states db)
          (task_data db ++
             [DataRow tid
                (default "" (d_prompt (in_data inp)))
                (default "" (d_context (in_data inp)))
                (default ∅ (d_parameters (in_data inp)))
                (default (JMap ∅) (d_results (in_data inp)))
                (default [] (wf_next_states (in_workflow inp)))
                (if truthy_dict (in_error inp)
                    && truthy_opt_jval (in_error inp !! "has_error")
                 then Some (in_error inp) else None)]))
  | None => Raise IntegrityError
  end.

(** The INSERT of a transition into [task_states]. *)
Definition insert_event (tid new_state : string) (now : timestamp)
    (error : option pydict) (db : DB) : outcome (unit * DB) :=
  if message_bindable (error_message_of error) then
    insert_state (Some tid) (Some new_state) now (truthy_opt_dict error)
      (if truthy_opt_dict error
       then bind_text (default ∅ error !! "message") else None) db
  else Raise OverflowError.

(** ** The transactions *)

Definition create_body (inp : task_input) (now : timestamp)
  : Txn (option string) :=
  execute (insert_task inp now);;
  execute (insert_state (in_task_id inp) (in_state inp) now false None);;
  execute (insert_data inp);;
  execute commit;;
  mret (in_task_id inp).

Definition update_body (tid new_state : string) (res : option string)
    (error : option pydict) (now : timestamp) : Txn bool :=
  row ← execute (select_current tid);
  match row with
  | None => mret false
  | Some (cur, completion) =>
      execute (update_seal now res tid cur);;
      execute (insert_event tid new_state now error);;
      let complete := bool_decide (new_state = completion) in
      let err := truthy_opt_dict error in
      execute (update_task tid new_state now complete err);;
      (if truthy_opt_dict error
       then execute (update_data tid (set_error_details (default ∅ error)))
       else mret tt);;
      fetched ← execute (select_results tid);
      match fetched with
      | None => raise TypeError
      | Some j =>
          match assign_result cur res j with
          | None => raise TypeError
          | Some j' =>
              execute (update_data tid (set_results j'));;
              execute commit;;
              mret true
          end
      end
  end.

(** ** Rows as Python dictionaries *)

(** A cell of a [sqlite3.Row]. *)
Inductive cell :=
| CNull
| CInt (z : Z)
| CText (s : string)
| CTime (t : timestamp).

(** [dict(row)]: the columns in the order of the SELECT. *)
Abbreviation row_dict := (list (string * cell)).

Inductive pyval :=
| VCell (c : cell)
| VDict (d : pydict)
| VList (l : list string)
| VRows (l : list row_dict)
| VItems (l : list jval)
| VScalar (v : jval).

(** [json.loads] of a stored document. *)
Definition pyval_of_json (j : pyjson) : pyval :=
  match j with
  | JMap m => VDict m
  | JList l => VItems l
  | JScalar v => VScalar v
  end.

Abbreviation task_dict := (list (string * pyval)).

Definition cell_bool (b : bool) : cell := CInt (if b then 1 else 0).

Definition cell_opt {A} (f : A → cell) (o : option A) : cell :=
  from_option f CNull o.

(** [SELECT state_name, entered_at, exited_at, duration_seconds, result,
    has_error, error_message FROM task_states] *)
Definition state_dict (r : state_row) : row_dict :=
  [("state_name", CText (state_name r));
   ("entered_at", CTime (entered_at r));
   ("exited_at", cell_opt CTime (exited_at r));
   ("duration_seconds", cell_opt CInt (duration_seconds r));
   ("result", cell_opt CText (result r));
   ("has_error", cell_bool (st_has_error r));
   ("error_message", cell_opt CText (error_message r))].

(** [ORDER BY]: the rows in ascending order of [R]; rows that [R] does
    not tell apart stay in the order of the scan. *)
Fixpoint insert_by {A} (R : A → A → Prop) `{!∀ x y, Decision (R x y)}
    (x : A) (l : list A) : list A :=
  match l with
  | [] => [x]
  | y :: l' => if decide (R x y) then x :: l else y :: insert_by R x l'
  end.

Definition sort_by {A} (R : A → A → Prop) `{!∀ x y, Decision (R x y)}
    (l : list A) : list A :=
  foldr (insert_by R) [] l.

(** [WHERE task_id = ? ORDER BY entered_at] *)
Definition entered_le (a b : state_row) : Prop := entered_at a ≤ entered_at b.

Global Instance entered_le_dec a b : Decision (entered_le a b).
Proof. unfold entered_le. apply _. Defined.

Definition select_history (tid : string) (db : DB)
  : outcome (list state_row * DB) :=
  Return (sort_by entered_le
            (filter (λ r, st_task_id r = tid) (task_states db)), db).

(** [SELECT t.*, td.prompt, ... FROM tasks t JOIN task_data td ON
    t.task_id = td.task_id WHERE t.task_id = ?] followed by [fetchone]. *)
Definition select_detail (tid : string) (db : DB)
  : outcome (option (task_row * data_row) * DB) :=
  Return (match find_task tid db, find_data tid db with
          | Some t, Some d => Some (t, d)
          | _, _ => None
          end, db).

(** [dict(task_row)] after the four JSON fields are parsed and
    [state_history] is attached. *)
Definition detail_dict (t : task_row) (d : data_row) (h : list state_row)
  : task_dict :=
  [("task_id", VCell (CText (task_id t)));
   ("workflow_id", VCell (CText (workflow_id t)));
   ("workflow_name", VCell (CText (workflow_name t)));
   ("workflow_version", VCell (CText (workflow_version t)));
   ("current_state", VCell (CText (current_state t)));
   ("completion_state", VCell (CText (completion_state t)));
   ("created_at", VCell (CTime (created_at t)));
   ("updated_at", VCell (CTime (updated_at t)));
   ("creator_id", VCell (CText (creator_id t)));
   ("priority", VCell (CText (priority t)));
   ("max_retries", VCell (CInt (max_retries t)));
   ("retry_count", VCell (CInt (retry_count t)));
   ("timeout_seconds", VCell (CInt (timeout_seconds t)));
   ("is_complete", VCell (cell_bool (is_complete t)));
   ("has_error", VCell (cell_bool (has_error t)));
   ("prompt", VCell (CText (prompt d)));
   ("context", VCell (CText (context d)));
   ("parameters", VDict (parameters d));
   ("results", pyval_of_json (results_json d));
   ("next_states", VList (next_states d));
   ("error_details", VDict (default ∅ (error_details d)));
   ("state_history", VRows (state_dict <$> h))].

Definition get_body (tid : string) : Txn task_dict :=
  joined ← execute (select_detail tid);
  match joined with
  | None => mret []
  | Some (t, d) =>
      h ← execute (select_history tid);
      mret (detail_dict t d h)
  end.

(** The WHERE clause of [list_tasks]: a condition is added for a filter
    only when the filter is truthy. *)
Definition matches (wf st : option string) (t : task_row) : Prop :=
  (truthy_opt_str wf → workflow_id t = default "" wf)
  ∧ (truthy_opt_str st → current_state t = default "" st).

Global Instance matches_dec wf st t : Decision (matches wf st t).
Proof. unfold matches. apply _. Defined.

(** [ORDER BY updated_at DESC] *)
Definition updated_ge (a b : task_row) : Prop := updated_at b ≤ updated_at a.

Global Instance updated_ge_dec a b : Decision (updated_ge a b).
Proof. unfold updated_ge. apply _. Defined.

(** [LIMIT ?]: a negative limit means no upper bound in SQLite. *)
Definition sql_limit {A} (limit : Z) (l : list A) : list A :=
  if decide (limit < 0) then l else take (Z.to_nat limit) l.

Definition list_rows (wf st : option string) (limit : Z) (db : DB)
  : list task_row :=
  sql_limit limit (sort_by updated_ge (filter (matches wf st) (tasks db))).

Definition select_list (wf st : option string) (limit : Z) (db : DB)
  : outcome (list task_row * DB) :=
  if bindable limit then Return (list_rows wf st limit db, db)
  else Raise OverflowError.

(** [SELECT task_id, workflow_id, workflow_name, current_state,
    created_at, updated_at, is_complete, has_error FROM tasks] *)
Definition summary_dict (t : task_row) : row_dict :=
  [("task_id", CText (task_id t));
   ("workflow_id", CText (workflow_id t));
   ("workflow_name", CText (workflow_name t));
   ("current_state", CText (current_state t));
   ("created_at", CTime (created_at t));
   ("updated_at", CTime (updated_at t));
   ("is_complete", cell_bool (is_complete t));
   ("has_error", cell_bool (has_error t))].

Definition list_body (wf st : option string) (limit : Z)
  : Txn (list row_dict) :=
  rows ← execute (select_list wf st limit);
  mret (summary_dict <$> rows).

(** ** The public operations

    Every operation opens its connection inside [try]; when
    [sqlite3.connect] itself fails, [conn] was never bound and the
    handler's [if conn:] raises [UnboundLocalError].  Otherwise the
    handlers of [create_task] and [update_task_state] roll back and
    re-raise, those of [get_task] and [list_tasks] return the empty
    value.  An operation yields its outcome and the database it leaves. *)

Definition create_task (f : fault) (now : timestamp) (db : DB)
    (inp : task_input) : outcome (option string) * DB :=
  match f with
  | ConnectFault => (Raise UnboundLocalError, db)
  | _ =>
      match create_body inp now f 0%nat db with
      | Return (tid, _, db') => (Return tid, db')
      | Raise e => (Raise e, db)
      end
  end.

Definition update_task_state (f : fault) (now : timestamp) (db : DB)
    (tid new_state : string) (res : option string) (error : option pydict)
  : outcome bool * DB :=
  match f with
  | ConnectFault => (Raise UnboundLocalError, db)
  | _ =>
      match update_body tid new_state res error now f 0%nat db with
      | Return (b, _, db') => (Return b, db')
      | Raise e => (Raise e, db)
      end
  end.

Definition get_task (f : fault) (db : DB) (tid : string) : outcome task_dict :=
  match f with
  | ConnectFault => Raise UnboundLocalError
  | _ =>
      match get_body tid f 0%nat db with
      | Return (d, _, _) => Return d
      | Raise _ => Return []
      end
  end.

Definition list_tasks (f : fault) (db : DB) (wf st : option string)
    (limit : Z) : outcome (list row_dict) :=
  match f with
  | ConnectFault => Raise UnboundLocalError
  | _ =>
      match list_body wf st limit f 0%nat db with
      | Return (l, _, _) => Return l
      | Raise _ => Return []
      end
  end.

(** ** Histories of the store *)

(** The databases the store can be in: it starts empty and changes only
    through [create_task] and [update_task_state], whatever their
    arguments, the time of the call and the fault that strikes. *)
Inductive reachable : DB → Prop :=
| reach_empty : reachable empty_db
| reach_create f now db inp :
    reachable db → reachable (create_task f now db inp).2
| reach_update f now db tid new_state res error :
    reachable db →
    reachable (update_task_state f now db tid new_state res error).2.

(** The open events of a task: its rows of [task_states] with a NULL
    [exited_at]. *)
Definition open_events (db : DB) (tid : string) : list state_row :=
  filter (λ r, st_task_id r = tid ∧ exited_at r = None) (task_states db).

Definition history (db : DB) (tid : string) : list state_row :=
  filter (λ r, st_task_id r = tid) (task_states db).

Definition results_of (db : DB) (tid : string) : pydict :=
  default ∅ (results <$> find_data tid db).

(** * Specification-level definitions *)

(** ** What a transition writes *)

(** The event a transition opens. *)
Definition new_event (db : DB) (tid new_state : string) (now : timestamp)
    (error : option pydict) : state_row :=
  StateRow (next_id (task_states db)) tid new_state now None None None
    (truthy_opt_dict error)
    (if truthy_opt_dict error
     then bind_text (default ∅ error !! "message") else None).

(** The results mapping a transition writes, from the one it fetched. *)
Definition results_after (cur : string) (res : option string) (m : pydict)
  : pydict :=
  if truthy_opt_str res then <[cur := JStr (default "" res)]> m else m.

(** The document a transition writes back, from the one it fetched. *)
Definition json_after (cur : string) (res : option string) (j : pyjson)
  : pyjson :=
  if truthy_opt_str res
  then JMap (<[cur := JStr (default "" res)]> (mapping_of j)) else j.

(** The payload row a transition leaves; [j] is the document fetched. *)
Definition payload_after (j : pyjson) (cur : string) (res : option string)
    (error : option pydict) (d : data_row) : data_row :=
  set_results (json_after cur res j)
    (if truthy_opt_dict error
     then set_error_details (default ∅ error) d else d).

(** What a transition needs beyond a stored task and a working store:
    an error message SQLite can bind and, when a result is to be
    recorded, a stored [results] document that is a mapping. *)
Definition transition_ok (d : data_row) (res : option string)
    (error : option pydict) : Prop :=
  message_bindable (error_message_of error) = true
  ∧ (truthy_opt_str res = true → ∃ m, results_json d = JMap m).

(** The database a transition of task [t] with payload [d] commits. *)
Definition transition (t : task_row) (d : data_row) (now : timestamp)
    (db : DB) (new_state : string) (res : option string)
    (error : option pydict) : DB :=
  MkDB
    ((λ t', if decide (task_id t' = task_id t)
            then set_task new_state now
                   (bool_decide (new_state = completion_state t))
                   (truthy_opt_dict error) t'
            else t') <$> tasks db)
    (seal_states now res (task_id t) (current_state t) (task_states db)
       ++ [new_event db (task_id t) new_state now error])
    ((λ d', if decide (td_task_id d' = task_id t)
            then payload_after (results_json d) (current_state t) res error d'
            else d')
       <$> task_data db).

(** ** What a creation writes *)

Definition new_task (tid wid state : string) (inp : task_input)
    (now : timestamp) : task_row :=
  TaskRow tid wid
    (default "unknown" (wf_name (in_workflow inp)))
    (default "1.0" (wf_version (in_workflow inp)))
    state
    (default "completion" (wf_completion_state (in_workflow inp)))
    now now
    (default "system" (md_creator_id (in_metadata inp)))
    (default "normal" (md_priority (in_metadata inp)))
    (default 3 (md_max_retries (in_metadata inp)))
    0
    (default 120 (md_timeout_seconds (in_metadata inp)))
    false false.

Definition new_payload (tid : string) (inp : task_input) : data_row :=
  DataRow tid
    (default "" (d_prompt (in_data inp)))
    (default "" (d_context (in_data inp)))
    (default ∅ (d_parameters (in_data inp)))
    (default (JMap ∅) (d_results (in_data inp)))
    (default [] (wf_next_states (in_workflow inp)))
    (if truthy_dict (in_error inp)
        && truthy_opt_jval (in_error inp !! "has_error")
     then Some (in_error inp) else None).

Definition created (tid wid state : string) (inp : task_input)
    (now : timestamp) (db : DB) : DB :=
  MkDB (tasks db ++ [new_task tid wid state inp now])
       (task_states db ++
          [StateRow (next_id (task_states db)) tid state now
             None None None false None])
       (task_data db ++ [new_payload tid inp]).

(** ** The invariant of the store *)

Record store_inv (db : DB) : Prop := StoreInv {
  inv_key : NoDup (task_id <$> tasks db);
  inv_payload :
    ∀ t, t ∈ tasks db → task_id t ∈ td_task_id <$> task_data db;
  inv_owner :
    ∀ r, r ∈ task_states db → st_task_id r ∈ task_id <$> tasks db;
  inv_open :
    ∀ t, t ∈ tasks db →
      ∃ r, open_events db (task_id t) = [r] ∧ state_name r = current_state t;
  inv_sealed :
    ∀ r e, r ∈ task_states db → exited_at r = Some e →
      duration_seconds r = Some (e - entered_at r)
}.

(** ** A worked scenario

    The end-to-end run of the specification: task ["t1"] is created in
    state ["initial"] with completion state ["done"], moves to
    ["processing"] with result ["ok"], and is retried there. *)

Module Scenario.

Definition t1_input : task_input :=
  TaskInput (Some "t1") (Some "wf-1") (Some "initial")
    (WorkflowInfo (Some "extract") None (Some "done") None)
    (MetadataInfo None None None None)
    (DataInfo (Some "run extraction") None None None)
    ∅.

Definition db_created : DB :=
  (create_task NoFault 100 empty_db t1_input).2.

Definition db_processing : DB :=
  (update_task_state NoFault 160 db_created "t1" "processing"
     (Some "ok") None).2.

Definition db_retried : DB :=
  (update_task_state NoFault 200 db_processing "t1" "processing"
     (Some "first try") None).2.

(** The [tasks] row of ["t1"] in [db_processing]. *)
Definition t1_processing : task_row :=
  TaskRow "t1" "wf-1" "extract" "1.0" "processing" "done" 100 160
    "system" "normal" 3 0 120 false false.

Definition t1_retried : task_row :=
  TaskRow "t1" "wf-1" "extract" "1.0" "processing" "done" 100 200
    "system" "normal" 3 0 120 false false.

(** The event sealed when ["t1"] left ["initial"]. *)
Definition initial_event : state_row :=
  StateRow 1 "t1" "initial" 100 (Some 160) (Some 60) (Some "ok") false None.

(** A second retry that reports another result for ["processing"]. *)
Definition db_second_try : DB :=
  (update_task_state NoFault 260 db_retried "t1" "processing"
     (Some "second try") None).2.

(** A transition given an empty string as result, and one given an
    empty mapping as error. *)
Definition db_empty_result : DB :=
  (update_task_state NoFault 260 db_retried "t1" "done" (Some "") None).2.

Definition db_empty_error : DB :=
  (update_task_state NoFault 260 db_retried "t1" "done" None (Some ∅)).2.

(** A task with no payload at all. *)
Definition bare_input : task_input :=
  TaskInput (Some "t0") (Some "wf-0") (Some "initial")
    (WorkflowInfo None None None None)
    (MetadataInfo None None None None)
    (DataInfo None None None None)
    ∅.

Definition db_bare : DB := (create_task NoFault 50 empty_db bare_input).2.

Definition t0_bare : task_row :=
  TaskRow "t0" "wf-0" "unknown" "1.0" "initial" "completion" 50 50
    "system" "normal" 3 0 120 false false.

End Scenario.

(** ** Sequences of operations *)

Global Instance task_row_eq_dec : EqDecision task_row.
Proof. solve_decision. Defined.

(** One call that may write to the store. *)
Inductive op :=
| OpCreate (f : fault) (now : timestamp) (inp : task_input)
| OpUpdate (f : fault) (now : timestamp) (tid new_state : string)
    (res : option string) (error : option pydict).

Definition apply_op (db : DB) (o : op) : DB :=
  match o with
  | OpCreate f now inp => (create_task f now db inp).2
  | OpUpdate f now tid new_state res error =>
      (update_task_state f now db tid new_state res error).2
  end.

Definition run_ops (db : DB) (ops : list op) : DB := foldl apply_op db ops.

(** The columns no operation writes after the insert: of a task, of a
    state event, of a payload row. *)
Definition task_fixed (t : task_row) :=
  (task_id t, workflow_id t, workflow_name t, workflow_version t,
   completion_state t, created_at t, creator_id t, priority t,
   max_retries t, retry_count t, timeout_seconds t).

Definition event_fixed (r : state_row) :=
  (st_id r, st_task_id r, state_name r, entered_at r, st_has_error r,
   error_message r).

Definition payload_fixed (d : data_row) :=
  (td_task_id d, prompt d, context d, parameters d, next_states d).

(** A history without gaps: every event but the last was left at the
    moment the next one was entered, and the last one is open. *)
Fixpoint contiguous (h : list state_row) : Prop :=
  match h with
  | [] => True
  | r :: h' =>
      match h' with
      | [] => exited_at r = None
      | r' :: _ => exited_at r = Some (entered_at r')
      end
      ∧ contiguous h'
  end.

(** Entered strictly earlier: no two events within the same second. *)
Definition entered_lt (a b : state_row) : Prop := entered_at a < entered_at b.

(** The seconds recorded in the [duration_seconds] of a history. *)
Definition total_duration (h : list state_row) : Z :=
  foldr (λ r acc, default 0 (duration_seconds r) + acc) 0 h.

(** ** What the histories of a reachable store look like *)

Record history_inv (db : DB) : Prop := HistoryInv {
  hinv_payload_ids : td_task_id <$> task_data db = task_id <$> tasks db;
  hinv_event_ids :
    ∀ i r, task_states db !! i = Some r → st_id r = Z.of_nat i + 1;
  hinv_open_duration :
    ∀ r, r ∈ task_states db → exited_at r = None →
         duration_seconds r = None;
  hinv_contiguous :
    ∀ t, t ∈ tasks db → contiguous (history db (task_id t));
  hinv_first :
    ∀ t, t ∈ tasks db →
         entered_at <$> head (history db (task_id t)) = Some (created_at t);
  hinv_last :
    ∀ t, t ∈ tasks db →
         ∃ r, last (history db (task_id t)) = Some r
              ∧ entered_at r = updated_at t
              ∧ state_name r = current_state t
              ∧ st_has_error r = has_error t;
  hinv_complete :
    ∀ t, t ∈ tasks db → is_complete t = true →
         current_state t = completion_state t;
  hinv_retry : ∀ t, t ∈ tasks db → retry_count t = 0
}.

(** ** More of the worked scenario *)

Module Example.

(** ["t1"] reaches its completion state. *)
Definition db_done : DB :=
  (update_task_state NoFault 300 Scenario.db_retried "t1" "done"
     (Some "finished") None).2.

Definition t1_done : task_row :=
  TaskRow "t1" "wf-1" "extract" "1.0" "done" "done" 100 300
    "system" "normal" 3 0 120 true false.

(** A second task, created after ["t1"] finished, that fails at once. *)
Definition t2_input : task_input :=
  TaskInput (Some "t2") (Some "wf-2") (Some "initial")
    (WorkflowInfo (Some "load") (Some "2.0") (Some "done")
       (Some ["processing"; "done"]))
    (MetadataInfo (Some "alice") (Some "high") (Some 5) (Some 60))
    (DataInfo (Some "load data") (Some "nightly") None None)
    ∅.

Definition db_two : DB := (create_task NoFault 400 db_done t2_input).2.

Definition disk_full : pydict :=
  <["message" := JStr "disk full"]> (<["has_error" := JBool true]> ∅).

Definition db_failed : DB :=
  (update_task_state NoFault 450 db_two "t2" "failed" None
     (Some disk_full)).2.

Definition t2_failed : task_row :=
  TaskRow "t2" "wf-2" "load" "2.0" "failed" "done" 400 450
    "alice" "high" 5 0 60 false true.





End Example.

(** ** The module-level manager (src/db_schema.py, lines 13-17, 19-86
    and 342-359)

    [files] gives the store kept in the database file at each path; a
    path without a file stands for the empty store, which is what
    [sqlite3.connect] and [_create_tables] make of it. *)

Record DatabaseManager := Manager { db_path : string }.

(** [CREATE TABLE IF NOT EXISTS] and [CREATE INDEX IF NOT EXISTS]: the
    rows of an existing table are not touched. *)
Definition ddl (db : DB) : outcome (unit * DB) := Return (tt, db).

(** The three tables, the three indexes and the commit. *)
Definition create_tables_body : Txn unit :=
  execute ddl;; execute ddl;; execute ddl;;
  execute ddl;; execute ddl;; execute ddl;;
  execute commit;;
  mret tt.

(** [_create_tables]: the handler logs and re-raises; it does not name
    [conn]. *)
Definition create_tables (f : fault) (db : DB) : outcome unit :=
  match f with
  | ConnectFault => Raise OperationalError
  | _ =>
      match create_tables_body f 0%nat db with
      | Return _ => Return tt
      | Raise e => Raise e
      end
  end.

(** [DatabaseManager(db_path)] *)
Definition new_manager (f : fault) (files : string → DB) (path : string)
  : outcome DatabaseManager :=
  match create_tables f (files path) with
  | Return _ => Return (Manager path)
  | Raise e => Raise e
  end.

(** The global [db_manager]: [None] until a constructor has returned. *)
Definition init_db (f : fault) (files : string → DB) (path : string)
    (st : option DatabaseManager)
  : outcome DatabaseManager * option DatabaseManager :=
  match st with
  | Some m => (Return m, Some m)
  | None =>
      match new_manager f files path with
      | Return m => (Return m, Some m)
      | Raise e => (Raise e, None)
      end
  end.

(** [env] is the value of the environment variable [SQLITE_DB]. *)
Definition get_db_manager (f : fault) (files : string → DB)
    (env : option string) (st : option DatabaseManager)
  : outcome DatabaseManager * option DatabaseManager :=
  match st with
  | Some m => (Return m, Some m)
  | None =>
      match new_manager f files (default "marathon_agent.db" env) with
      | Return m => (Return m, Some m)
      | Raise e => (Raise e, None)
      end
  end.

(** A call of one of the two accessors, and a sequence of such calls
    with the results they give. *)
Inductive accessor :=
| CallInit (f : fault) (path : string)
| CallGet (f : fault) (env : option string).

Definition call_accessor (files : string → DB) (c : accessor)
    (st : option DatabaseManager)
  : outcome DatabaseManager * option DatabaseManager :=
  match c with
  | CallInit f path => init_db f files path st
  | CallGet f env => get_db_manager f files env st
  end.

Fixpoint call_accessors (files : string → DB) (cs : list accessor)
    (st : option DatabaseManager) : list (outcome DatabaseManager) :=
  match cs with
  | [] => []
  | c :: cs' =>
      let r := call_accessor files c st in
      r.1 :: call_accessors files cs' r.2
  end.

(** ** The read endpoints (src/workflow_api.py, lines 97-135)

    Both routes declare a [response_model]: FastAPI validates what the
    endpoint function returns against it, and raises
    [ResponseValidationError], which the client sees as status 500, when
    the value does not fit. *)

Inductive response (A : Type) :=
| Respond (a : A)
| HTTPException (status : Z) (detail : string)
| ResponseValidationError
| Uncaught (e : exn).
Arguments Respond {A} a.
Arguments HTTPException {A} status detail.
Arguments ResponseValidationError {A}.
Arguments Uncaught {A} e.

(** [d.get(k)] on a dictionary kept as its list of items. *)
Fixpoint get_field {V} (k : string) (d : list (string * V)) : option V :=
  match d with
  | [] => None
  | (k', v) :: d' => if decide (k' = k) then Some v else get_field k d'
  end.

(** A field without a default must be there and fit; a field with a
    default may be left out.  Keys that the model does not declare are
    ignored. *)
Definition required {V} (fits : V → bool) (k : string)
    (d : list (string * V)) : bool :=
  from_option fits false (get_field k d).

Definition defaulted {V} (fits : V → bool) (k : string)
    (d : list (string * V)) : bool :=
  from_option fits true (get_field k d).

(** The annotations [str], [bool], [int] and [Optional[...]] on the
    cells of a row: text for [str], the integers 0 and 1 for [bool]. *)
Definition fits_str (c : cell) : bool :=
  match c with
  | CText _ | CTime _ => true
  | _ => false
  end.

Definition fits_bool (c : cell) : bool :=
  match c with
  | CInt z => bool_decide (z = 0 ∨ z = 1)
  | _ => false
  end.

Definition fits_int (c : cell) : bool :=
  match c with
  | CInt _ => true
  | _ => false
  end.

Definition fits_optional (fits : cell → bool) (c : cell) : bool :=
  match c with
  | CNull => true
  | _ => fits c
  end.

(** [class StateTransition(BaseModel)]: [state] and [entered_at] are
    declared with [Field(...)], the other fields with a default. *)
Definition valid_transition (r : row_dict) : bool :=
  required fits_str "state" r
  && required fits_str "entered_at" r
  && defaulted (fits_optional fits_str) "exited_at" r
  && defaulted (fits_optional fits_int) "duration_seconds" r
  && defaulted (fits_optional fits_str) "result" r
  && defaulted fits_bool "has_error" r
  && defaulted (fits_optional fits_str) "error_message" r.

(** [class TaskSummary(BaseModel)], on a row of [list_tasks]. *)
Definition valid_summary (r : row_dict) : bool :=
  forallb (λ k, required fits_str k r)
    ["task_id"; "workflow_id"; "workflow_name"; "current_state";
     "created_at"; "updated_at"]
  && forallb (λ k, required fits_bool k r) ["is_complete"; "has_error"].

Definition fits_cell (fits : cell → bool) (v : pyval) : bool :=
  match v with
  | VCell c => fits c
  | _ => false
  end.

Definition fits_dict (v : pyval) : bool :=
  match v with
  | VDict _ => true
  | _ => false
  end.

Definition fits_str_list (v : pyval) : bool :=
  match v with
  | VList _ => true
  | _ => false
  end.

Definition fits_transitions (v : pyval) : bool :=
  match v with
  | VRows rows => forallb valid_transition rows
  | _ => false
  end.

(** [class TaskDetail(TaskSummary)], on the dictionary of [get_task]. *)
Definition valid_detail (task : task_dict) : bool :=
  forallb (λ k, required (fits_cell fits_str) k task)
    ["task_id"; "workflow_id"; "workflow_name"; "current_state";
     "created_at"; "updated_at"; "workflow_version"; "completion_state";
     "creator_id"; "priority"; "prompt"]
  && forallb (λ k, required (fits_cell fits_bool) k task)
       ["is_complete"; "has_error"]
  && required (fits_cell (fits_optional fits_str)) "context" task
  && required fits_dict "parameters" task
  && required fits_dict "results" task
  && required fits_str_list "next_states" task
  && required fits_transitions "state_history" task.

(** [GET /workflow/tasks/{task_id}], [response_model=TaskDetail]: [fc]
    strikes in the constructor of the manager, if one has to be made,
    [fo] in [get_task].  The endpoint gives its response and leaves the
    global manager. *)
Definition api_get_task (fc fo : fault) (files : string → DB)
    (env : option string) (st : option DatabaseManager) (tid : string)
  : response task_dict * option DatabaseManager :=
  match get_db_manager fc files env st with
  | (Raise e, st') => (Uncaught e, st')
  | (Return m, st') =>
      match get_task fo (files (db_path m)) tid with
      | Raise e => (Uncaught e, st')
      | Return [] =>
          (HTTPException 404
             (String.append "Task " (String.append tid " not found")), st')
      | Return task =>
          (if valid_detail task then Respond task
           else ResponseValidationError, st')
      end
  end.

(** [GET /workflow/tasks], [response_model=List[TaskSummary]] *)
Definition api_list_tasks (fc fo : fault) (files : string → DB)
    (env : option string) (st : option DatabaseManager)
    (wf state : option string) (limit : Z)
  : response (list row_dict) * option DatabaseManager :=
  match get_db_manager fc files env st with
  | (Raise e, st') => (Uncaught e, st')
  | (Return m, st') =>
      match list_tasks fo (files (db_path m)) wf state limit with
      | Raise e => (Uncaught e, st')
      | Return l =>
          (if forallb valid_summary l then Respond l
           else ResponseValidationError, st')
      end
  end.

(** A process whose store file ["marathon_agent.db"] holds the scenario. *)
Module Process.

Definition files (path : string) : DB :=
  if decide (path = "marathon_agent.db") then Example.db_failed
  else empty_db.

Definition calls : list accessor :=
  [CallGet ConnectFault None;
   CallInit NoFault "first.db";
   CallInit NoFault "second.db";
   CallGet (StmtFault 2) (Some "third.db")].

End Process.

(** * Proofs *)

Ltac unfold_txn :=
  unfold mbind, Txn_bind, mret, Txn_ret, raise, execute in *.

(** Case analysis on the statement a fault is scheduled at, far enough
    for the longest transaction. *)
Ltac fault_cases f :=
  destruct f as [| |[|[|[|[|[|[|[|[|?]]]]]]]]]; simpl in *.

(** ** Lists of rows *)

Section Rows.

Context {A : Type} (P : A → Prop) `{!∀ x, Decision (P x)}.

Lemma filter_fmap_stable (g : A → A) (l : list A) :
  (∀ x, x ∈ l → (P x → g x = x) ∧ (P (g x) → P x)) →
  filter P (g <$> l) = filter P l.
Proof.
  induction l as [|a l IH]; intros Hg; [done|].
  rewrite fmap_cons, !filter_cons.
  destruct (Hg a) as [H1 H2]; [left|].
  rewrite IH by (intros x Hx; apply Hg; by right).
  destruct (decide (P a)) as [Ha|Ha].
  - rewrite (H1 Ha). by rewrite decide_True.
  - rewrite decide_False by tauto. done.
Qed.

Lemma filter_fmap_nil (g : A → A) (l : list A) :
  (∀ x, x ∈ l → ¬ P (g x)) → filter P (g <$> l) = [].
Proof.
  induction l as [|a l IH]; intros Hg; [done|].
  rewrite fmap_cons, filter_cons.
  rewrite decide_False by (apply Hg; left).
  apply IH. intros x Hx. apply Hg. by right.
Qed.

Lemma filter_none (l : list A) : (∀ x, x ∈ l → ¬ P x) → filter P l = [].
Proof.
  intros Hl. rewrite <- (list_fmap_id l). apply filter_fmap_nil. done.
Qed.

Lemma filter_fmap_comm (g : A → A) (l : list A) :
  (∀ x, P (g x) ↔ P x) → filter P (g <$> l) = g <$> filter P l.
Proof.
  intros Hg. induction l as [|a l IH]; [done|].
  rewrite fmap_cons, !filter_cons, IH.
  destruct (decide (P a)) as [Ha|Ha].
  - rewrite decide_True by (by apply Hg). done.
  - rewrite decide_False by (by rewrite Hg). done.
Qed.

End Rows.

Section Sorting.

Context {A : Type} (R : A → A → Prop) `{!∀ x y, Decision (R x y)}.

Lemma insert_by_Permutation x (l : list A) : insert_by R x l ≡ₚ x :: l.
Proof.
  induction l as [|y l IH]; simpl; [done|].
  destruct (decide (R x y)); [done|]. rewrite IH. apply Permutation_swap.
Qed.

Lemma sort_by_Permutation (l : list A) : sort_by R l ≡ₚ l.
Proof.
  induction l as [|x l IH]; simpl; [done|].
  unfold sort_by in *. simpl. by rewrite insert_by_Permutation, IH.
Qed.

Context `{!Transitive R, !Total R}.

Lemma StronglySorted_insert_by x (l : list A) :
  StronglySorted R l → StronglySorted R (insert_by R x l).
Proof.
  induction 1 as [|y l Hs IH Hall]; simpl; [by repeat constructor|].
  destruct (decide (R x y)) as [Hxy|Hxy].
  - constructor; [by constructor|]. constructor; [done|].
    eapply Forall_impl; [exact Hall|]. intros z Hz. by etrans.
  - constructor; [done|].
    rewrite insert_by_Permutation. constructor; [|done].
    by destruct (total R x y).
Qed.

Lemma StronglySorted_sort_by (l : list A) : StronglySorted R (sort_by R l).
Proof.
  induction l as [|x l IH]; [constructor|].
  unfold sort_by in *. simpl. by apply StronglySorted_insert_by.
Qed.

(** A list that is in order already is left as it is. *)
Lemma sort_by_sorted (l : list A) : StronglySorted R l → sort_by R l = l.
Proof.
  induction 1 as [|x l Hs IH Hall]; [done|].
  unfold sort_by in *. simpl. rewrite IH.
  destruct l as [|y l]; [done|]. simpl.
  apply Forall_cons in Hall as [Hxy _]. by rewrite decide_True.
Qed.

End Sorting.

Section Keys.

Context {A : Type} (key : A → string).

(** Rewriting the rows of one key leaves [fetchone] on the row that was
    first, rewritten. *)
Lemma head_filter_fmap_key (g : A → A) tid (l : list A) :
  (∀ a, key (g a) = key a) →
  head (filter (λ a, key a = tid)
          ((λ a, if decide (key a = tid) then g a else a) <$> l))
  = g <$> head (filter (λ a, key a = tid) l).
Proof.
  intros Hkey. induction l as [|a l IH]; [done|].
  rewrite fmap_cons, !filter_cons.
  destruct (decide (key a = tid)) as [Ha|Ha].
  - rewrite decide_True by (by rewrite Hkey). done.
  - rewrite decide_False by done. done.
Qed.

Lemma head_filter_key_None tid (l : list A) :
  head (filter (λ a, key a = tid) l) = None ↔ tid ∉ key <$> l.
Proof.
  rewrite head_None. split.
  - intros H [a [-> Ha]]%list_elem_of_fmap.
    assert (a ∈ filter (λ a', key a' = key a) l) as Hin
      by (by apply list_elem_of_filter).
    rewrite H in Hin. by apply not_elem_of_nil in Hin.
  - intros H. apply filter_none. intros a Ha <-. apply H.
    apply list_elem_of_fmap. eauto.
Qed.

(** A key that is unique selects one row. *)
Lemma NoDup_key_eq (l : list A) x y :
  NoDup (key <$> l) → x ∈ l → y ∈ l → key x = key y → x = y.
Proof.
  induction l as [|a l IH]; intros Hnd Hx Hy Hk.
  - by apply not_elem_of_nil in Hx.
  - rewrite fmap_cons in Hnd. apply NoDup_cons in Hnd as [Ha Hnd].
    apply elem_of_cons in Hx as [->|Hx], Hy as [->|Hy].
    + done.
    + exfalso. apply Ha. rewrite Hk. apply list_elem_of_fmap. eauto.
    + exfalso. apply Ha. rewrite <- Hk. apply list_elem_of_fmap. eauto.
    + by apply IH.
Qed.

End Keys.

(** ** Lookups *)

Lemma find_task_id tid db t : find_task tid db = Some t → task_id t = tid.
Proof.
  unfold find_task. intros H. apply head_Some_elem_of in H.
  by apply list_elem_of_filter in H as [? _].
Qed.

Lemma find_task_elem tid db t : find_task tid db = Some t → t ∈ tasks db.
Proof.
  unfold find_task. intros H. apply head_Some_elem_of in H.
  by apply list_elem_of_filter in H as [_ ?].
Qed.

Lemma find_task_None tid db :
  find_task tid db = None ↔ tid ∉ task_id <$> tasks db.
Proof. apply head_filter_key_None. Qed.

Lemma find_task_is_Some tid db :
  tid ∈ task_id <$> tasks db → is_Some (find_task tid db).
Proof.
  intros H. destruct (find_task tid db) eqn:E; [eauto|].
  by apply find_task_None in E.
Qed.

Lemma find_data_is_Some tid db :
  tid ∈ td_task_id <$> task_data db → is_Some (find_data tid db).
Proof.
  intros H. destruct (find_data tid db) eqn:E; [eauto|].
  by apply (head_filter_key_None td_task_id) in E.
Qed.

(** [find_data] reads [task_data] only. *)
Lemma find_data_ext tid db db' :
  task_data db = task_data db' → find_data tid db = find_data tid db'.
Proof. unfold find_data. by intros ->. Qed.

Lemma find_data_after_error tid e ts ss db :
  find_data tid
    (MkDB ts ss
       ((λ d, if decide (td_task_id d = tid)
              then set_error_details e d else d) <$> task_data db))
  = set_error_details e <$> find_data tid db.
Proof.
  unfold find_data; simpl.
  apply (head_filter_fmap_key td_task_id (set_error_details e)). done.
Qed.

Lemma open_events_elem db tid r :
  r ∈ open_events db tid ↔
  r ∈ task_states db ∧ st_task_id r = tid ∧ exited_at r = None.
Proof. unfold open_events. rewrite list_elem_of_filter. tauto. Qed.

Lemma next_id_seal now res tid cur l :
  next_id (seal_states now res tid cur l) = next_id l.
Proof. unfold next_id, seal_states. by rewrite length_fmap. Qed.

(** Sealing the open event of [tid] leaves the open events of every
    other task as they were. *)
Lemma open_events_seal_other now res tid cur tid' l :
  tid' ≠ tid →
  filter (λ r, st_task_id r = tid' ∧ exited_at r = None)
    (seal_states now res tid cur l)
  = filter (λ r, st_task_id r = tid' ∧ exited_at r = None) l.
Proof.
  intros Hne. unfold seal_states. apply filter_fmap_stable.
  intros r _. destruct (decide (is_open_in tid cur r)) as [[Hr _]|Hr].
  - simpl. split; intros [? ?]; congruence.
  - done.
Qed.

(** Sealing closes every open event of [tid], provided they all carry
    its current state. *)
Lemma open_events_seal_self now res tid cur l :
  (∀ r, r ∈ l → st_task_id r = tid → exited_at r = None →
        state_name r = cur) →
  filter (λ r, st_task_id r = tid ∧ exited_at r = None)
    (seal_states now res tid cur l) = [].
Proof.
  intros Hcur. unfold seal_states. apply filter_fmap_nil.
  intros r Hr. destruct (decide (is_open_in tid cur r)) as [Ho|Ho].
  - simpl. intros [_ ?]. done.
  - intros [H1 H2]. apply Ho. split; [done|]. split; [|done]. by apply Hcur.
Qed.

(** ** Running [update_task_state] *)

Lemma results_set_results j d : results (set_results j d) = mapping_of j.
Proof. done. Qed.

Lemma results_json_after cur res j :
  mapping_of (json_after cur res j) = results_after cur res (mapping_of j).
Proof. unfold json_after, results_after. by destruct (truthy_opt_str res). Qed.

(** When a transition can write its result, it writes [json_after]. *)
Lemma assign_result_Some cur res j j' :
  assign_result cur res j = Some j' → j' = json_after cur res j.
Proof.
  unfold assign_result, json_after. destruct (truthy_opt_str res).
  - destruct j; [|done..]. by intros [= <-].
  - by intros [= <-].
Qed.

Lemma assign_result_ok cur res d error :
  transition_ok d res error →
  assign_result cur res (results_json d)
  = Some (json_after cur res (results_json d)).
Proof.
  intros [_ Hm]. unfold assign_result, json_after.
  destruct (truthy_opt_str res); [|done].
  destruct (Hm eq_refl) as [m ->]. done.
Qed.

Lemma assign_result_transition_ok cur res d error :
  message_bindable (error_message_of error) = true →
  is_Some (assign_result cur res (results_json d)) →
  transition_ok d res error.
Proof.
  intros Hb [j' Hj]. split; [done|]. intros Hres.
  unfold assign_result in Hj. rewrite Hres in Hj.
  destruct (results_json d); [by eexists|done..].
Qed.

Lemma payload_fmap_compose tid j cur res error (l : list data_row) :
  ((λ d, if decide (td_task_id d = tid)
         then set_results (json_after cur res j) d else d)
     <$> (if truthy_opt_dict error
          then (λ d, if decide (td_task_id d = tid)
                     then set_error_details (default ∅ error) d else d)
                 <$> l
          else l))
  = (λ d, if decide (td_task_id d = tid)
          then payload_after j cur res error d else d) <$> l.
Proof.
  unfold payload_after. destruct (truthy_opt_dict error); [|done].
  rewrite <- list_fmap_compose. apply list_fmap_ext. intros _ d _. simpl.
  destruct (decide (td_task_id d = tid)) as [Hd|Hd]; simpl.
  - by rewrite decide_True.
  - by rewrite decide_False.
Qed.

(** Without a fault, a transition of a task that has its payload row
    commits [transition] and returns [True], provided the message can be
    bound and the result can be recorded. *)
Lemma update_found now db tid new_state res error t d :
  find_task tid db = Some t →
  find_data tid db = Some d →
  transition_ok d res error →
  update_task_state NoFault now db tid new_state res error
  = (Return true, transition t d now db new_state res error).
Proof.
  intros Ht Hd Hok. pose proof (find_task_id _ _ _ Ht) as Hid.
  pose proof (assign_result_ok (current_state t) res d error Hok) as Ha.
  destruct Hok as [Hb _].
  unfold update_task_state, update_body, insert_event, transition, new_event.
  unfold_txn. simpl. rewrite Ht. simpl. rewrite Hb. simpl.
  pose proof (payload_fmap_compose tid (results_json d) (current_state t)
                res error (task_data db)) as Hc.
  destruct (truthy_opt_dict error) eqn:Herr; simpl; unfold select_results.
  - rewrite find_data_after_error, Hd. simpl. rewrite Ha. simpl.
    rewrite Hid, next_id_seal. by rewrite Hc.
  - erewrite (find_data_ext tid _ db) by done.
    rewrite Hd. simpl. rewrite Ha. simpl.
    rewrite Hid, next_id_seal. by rewrite Hc.
Qed.

Lemma update_absent now db tid new_state res error :
  find_task tid db = None →
  update_task_state NoFault now db tid new_state res error
  = (Return false, db).
Proof.
  intros Ht. unfold update_task_state, update_body. unfold_txn. simpl.
  by rewrite Ht.
Qed.

(** The steps of [update_body] on a stored task, one case per test the
    code makes. *)
Ltac update_steps tid db error :=
  unfold update_task_state, update_body, insert_event, select_current;
  unfold_txn; simpl;
  destruct (find_task tid db) as [?t|] eqn:?Ht; simpl;
  destruct (message_bindable (error_message_of error)) eqn:?Hb; simpl;
  destruct (truthy_opt_dict error) eqn:?Herr; simpl;
  unfold select_results;
  rewrite ?find_data_after_error;
  try erewrite (find_data_ext tid _ db) by done;
  destruct (find_data tid db) as [?d|] eqn:?Hd; simpl;
  try match goal with
      | |- context [assign_result ?c ?r ?j] =>
          destruct (assign_result c r j) as [?j'|] eqn:?Ha; simpl
      end.

(** A call that returns is a call the fault did not strike. *)
Lemma update_return_nofault f now db tid new_state res error b db' :
  update_task_state f now db tid new_state res error = (Return b, db') →
  update_task_state NoFault now db tid new_state res error
  = (Return b, db').
Proof.
  destruct f as [| |n]; [done| |].
  - unfold update_task_state. done.
  - do 9 (try destruct n as [|n]); update_steps tid db error; done.
Qed.

(** A call that raises leaves the database as it was. *)
Lemma update_raise_rollback f now db tid new_state res error e db' :
  update_task_state f now db tid new_state res error = (Raise e, db') →
  db' = db.
Proof.
  unfold update_task_state.
  destruct f; [| by intros [= _ <-] |];
    (destruct (update_body _ _ _ _ _ _ _ _) as [[[? ?] ?]|?];
     [done| by intros [= _ <-]]).
Qed.

(** A call that returns [False] found no task and wrote nothing. *)
Lemma update_false_absent now db tid new_state res error db' :
  update_task_state NoFault now db tid new_state res error
  = (Return false, db') →
  find_task tid db = None ∧ db' = db.
Proof.
  update_steps tid db error; try done; by intros [= <-].
Qed.

(** A call that returns [True] committed a transition of a stored task
    whose message could be bound and whose result could be recorded. *)
Lemma update_true_transition now db tid new_state res error db' :
  update_task_state NoFault now db tid new_state res error
  = (Return true, db') →
  ∃ t d, find_task tid db = Some t ∧ find_data tid db = Some d
         ∧ transition_ok d res error
         ∧ db' = transition t d now db new_state res error.
Proof.
  intros Hrun.
  destruct (find_task tid db) as [t|] eqn:Ht;
    [|by rewrite update_absent in Hrun].
  assert (∃ d, find_data tid db = Some d ∧ transition_ok d res error)
    as (d & Hd & Hok).
  { revert Hrun. update_steps tid db error; try done.
    all: intros _; eexists; split; [done|];
      eapply assign_result_transition_ok; eauto. }
  exists t, d. rewrite (update_found _ _ _ _ _ _ t d) in Hrun by done.
  by injection Hrun as <-.
Qed.

(** Whatever happens, the call leaves the database as it was or
    commits a transition. *)
Lemma update_cases f now db tid new_state res error :
  let r := update_task_state f now db tid new_state res error in
  (r.1 ≠ Return true ∧ r.2 = db)
  ∨ (∃ t d, find_task tid db = Some t ∧ find_data tid db = Some d
       ∧ r = (Return true, transition t d now db new_state res error)).
Proof.
  intros r. destruct r as [o db'] eqn:Hr. subst r.
  destruct o as [[|]|e].
  - right. apply update_return_nofault in Hr.
    apply update_true_transition in Hr as (t & d & Ht & Hd & _ & ->).
    by exists t, d.
  - left. apply update_return_nofault in Hr. split; [done|].
    by apply update_false_absent in Hr as [_ ->].
  - left. split; [done|]. by eapply update_raise_rollback.
Qed.

Lemma update_success f now db tid new_state res error db' :
  update_task_state f now db tid new_state res error = (Return true, db') →
  ∃ t d, find_task tid db = Some t ∧ find_data tid db = Some d
         ∧ db' = transition t d now db new_state res error.
Proof.
  intros Hr.
  destruct (update_cases f now db tid new_state res error)
    as [[Hne _]|(t & d & Ht & Hd & Heq)].
  - rewrite Hr in Hne. done.
  - exists t, d. rewrite Hr in Heq. by injection Heq.
Qed.

(** A call that does not return [True] wrote nothing. *)
Lemma update_not_true_rollback f now db tid new_state res error :
  (update_task_state f now db tid new_state res error).1 ≠ Return true →
  (update_task_state f now db tid new_state res error).2 = db.
Proof.
  intros Hne.
  destruct (update_cases f now db tid new_state res error)
    as [[_ Hdb]|(t & d & _ & _ & Heq)]; [done|].
  by rewrite Heq in Hne.
Qed.

(** A transition runs seven statements, eight when [error] is not empty;
    a fault in one of them never ends in [True]. *)
Lemma update_fault_not_true n now db tid new_state res error :
  (n ≤ if truthy_opt_dict error then 7 else 6)%nat →
  (update_task_state (StmtFault n) now db tid new_state res error).1
  ≠ Return true.
Proof.
  intros Hn.
  assert (n ≤ 7)%nat as Hn' by (destruct (truthy_opt_dict error); lia).
  revert Hn.
  destruct n as [|[|[|[|[|[|[|[|n]]]]]]]]; [| | | | | | | |lia];
    update_steps tid db error; intros Hn; try done; lia.
Qed.

(** ** Running [create_task] *)

(** A creation leaves the database as it was, or it commits the three
    rows of a task whose id was free in [tasks] and in [task_data]. *)
Lemma create_cases f now db inp :
  let r := create_task f now db inp in
  ((∀ o, r.1 ≠ Return o) ∧ r.2 = db)
  ∨ (∃ tid wid state,
       in_task_id inp = Some tid ∧ in_workflow_id inp = Some wid
       ∧ in_state inp = Some state
       ∧ (tid ∉ (task_id <$> tasks db))
       ∧ (tid ∉ (td_task_id <$> task_data db))
       ∧ r = (Return (Some tid), created tid wid state inp now db)).
Proof.
  simpl. unfold create_task, create_body, insert_task, insert_state,
    insert_data, commit.
  unfold_txn.
  destruct (bindable _ && bindable _).
  2: { left. fault_cases f; by split. }
  destruct (in_task_id inp) as [tid|] eqn:Htid.
  2: { left. destruct (in_workflow_id inp), (in_state inp);
       fault_cases f; by split. }
  destruct (in_workflow_id inp) as [wid|] eqn:Hwid.
  2: { left. fault_cases f; by split. }
  destruct (in_state inp) as [state|] eqn:Hst.
  2: { left. fault_cases f; by split. }
  destruct (pk_taken tid (task_id <$> tasks db)) eqn:Hin.
  { left. fault_cases f; by split. }
  destruct (pk_taken tid (td_task_id <$> task_data db)) eqn:Hd.
  { left. fault_cases f; rewrite ?Hd; by split. }
  pose proof (proj1 (bool_decide_eq_false _) Hin) as Hin'.
  pose proof (proj1 (bool_decide_eq_false _) Hd) as Hd'.
  fault_cases f; rewrite ?Hd; try (left; by split);
    right; exists tid, wid, state; by repeat split.
Qed.

(** ** The database a transition commits *)

Section Transition.

Variables (t : task_row) (d : data_row) (now : timestamp) (db : DB).
Variables (new_state : string) (res : option string) (error : option pydict).

Let db' := transition t d now db new_state res error.

Lemma task_ids_transition : task_id <$> tasks db' = task_id <$> tasks db.
Proof.
  subst db'. simpl. rewrite <- list_fmap_compose. apply list_fmap_ext.
  intros _ t' _. simpl. by destruct (decide _).
Qed.

Lemma data_ids_transition :
  td_task_id <$> task_data db' = td_task_id <$> task_data db.
Proof.
  subst db'. simpl. rewrite <- list_fmap_compose. apply list_fmap_ext.
  intros _ d' _. simpl. destruct (decide _); [|done].
  unfold payload_after. by destruct (truthy_opt_dict error).
Qed.

Lemma find_task_transition :
  find_task (task_id t) db'
  = set_task new_state now (bool_decide (new_state = completion_state t))
      (truthy_opt_dict error)
    <$> find_task (task_id t) db.
Proof.
  unfold find_task. simpl.
  apply (head_filter_fmap_key task_id
           (set_task new_state now _ (truthy_opt_dict error))). done.
Qed.

Lemma find_data_transition :
  find_data (task_id t) db'
  = payload_after (results_json d) (current_state t) res error
    <$> find_data (task_id t) db.
Proof.
  unfold find_data. simpl.
  apply (head_filter_fmap_key td_task_id
           (payload_after (results_json d) (current_state t) res error)).
  intros d'. unfold payload_after. by destruct (truthy_opt_dict error).
Qed.

Lemma results_of_transition :
  find_data (task_id t) db = Some d →
  results_of db' (task_id t)
  = results_after (current_state t) res (results_of db (task_id t)).
Proof.
  intros Hd. unfold results_of. rewrite find_data_transition, Hd. simpl.
  unfold payload_after. rewrite results_set_results. apply results_json_after.
Qed.

(** The history of the task grows by the new event; the events before
    it keep their places. *)
Lemma history_transition :
  history db' (task_id t)
  = seal_states now res (task_id t) (current_state t)
      (history db (task_id t))
    ++ [new_event db (task_id t) new_state now error].
Proof.
  unfold history. simpl. rewrite filter_app.
  rewrite filter_cons, decide_True by done. rewrite filter_nil.
  f_equal. unfold seal_states. apply filter_fmap_comm.
  intros r. by destruct (decide (is_open_in _ _ r)).
Qed.

Hypothesis Hinv : store_inv db.
Hypothesis Ht : t ∈ tasks db.

(** With the invariant, the one open event is sealed and the new event
    is the one open event. *)
Lemma open_events_transition :
  ∃ old,
    open_events db (task_id t) = [old]
    ∧ state_name old = current_state t
    ∧ seal_row now res old ∈ task_states db'
    ∧ open_events db' (task_id t)
      = [new_event db (task_id t) new_state now error].
Proof.
  destruct (inv_open db Hinv t Ht) as [old [Hold Hs]].
  exists old. split; [done|]. split; [done|].
  assert (old ∈ open_events db (task_id t)) as Hin by (rewrite Hold; left).
  apply open_events_elem in Hin as (Hin & Hid & Hex).
  split.
  - simpl. apply elem_of_app. left. unfold seal_states.
    apply list_elem_of_fmap. exists old. split; [|done].
    by rewrite decide_True.
  - unfold open_events. simpl. rewrite filter_app.
    rewrite open_events_seal_self.
    + by rewrite filter_cons, decide_True.
    + intros r Hr Hrid Hrex.
      assert (r ∈ open_events db (task_id t)) as Hr'
        by (by apply open_events_elem).
      rewrite Hold in Hr'. apply list_elem_of_singleton in Hr'. by subst.
Qed.

Lemma store_inv_transition : store_inv db'.
Proof.
  destruct Hinv as [Hkey Hpay Hown Hopen Hseal].
  destruct open_events_transition as (old & Hold & Hs & _ & Hnew).
  split.
  - by rewrite task_ids_transition.
  - intros t' Ht'. rewrite data_ids_transition.
    assert (task_id t' ∈ task_id <$> tasks db) as Hid.
    { rewrite <- task_ids_transition. apply list_elem_of_fmap. eauto. }
    apply list_elem_of_fmap in Hid as [t0 [-> Ht0]]. by apply Hpay.
  - intros r Hr. rewrite task_ids_transition. simpl in Hr.
    apply elem_of_app in Hr as [Hr| ->%list_elem_of_singleton].
    + unfold seal_states in Hr.
      apply list_elem_of_fmap in Hr as [r' [-> Hr']].
      destruct (decide _); simpl; by apply Hown.
    + simpl. apply list_elem_of_fmap. eauto.
  - intros t' Ht'. simpl in Ht'.
    apply list_elem_of_fmap in Ht' as [t0 [-> Ht0]].
    destruct (decide (task_id t0 = task_id t)) as [Heq|Hne].
    + simpl. rewrite Heq, Hnew. eauto.
    + unfold open_events. simpl. rewrite filter_app.
      rewrite open_events_seal_other by done.
      destruct (Hopen t0 Ht0) as [r [Hr Hs']]. exists r. split; [|done].
      unfold open_events in Hr. rewrite Hr.
      rewrite filter_cons, decide_False; [done|]. simpl.
      intros [? _]. congruence.
  - intros r e Hr He. simpl in Hr.
    apply elem_of_app in Hr as [Hr| ->%list_elem_of_singleton]; [|done].
    unfold seal_states in Hr.
    apply list_elem_of_fmap in Hr as [r' [-> Hr']].
    destruct (decide _).
    + simpl in *. injection He as <-. done.
    + by apply Hseal.
Qed.

End Transition.

(** ** The invariant holds in every reachable store *)

Lemma store_inv_empty : store_inv empty_db.
Proof.
  split; simpl.
  - constructor.
  - intros t Ht. by apply not_elem_of_nil in Ht.
  - intros r Hr. by apply not_elem_of_nil in Hr.
  - intros t Ht. by apply not_elem_of_nil in Ht.
  - intros r e Hr. by apply not_elem_of_nil in Hr.
Qed.

Lemma store_inv_created tid wid state inp now db :
  store_inv db →
  tid ∉ task_id <$> tasks db →
  store_inv (created tid wid state inp now db).
Proof.
  intros [Hkey Hpay Hown Hopen Hseal] Hfresh.
  assert (Hnone : open_events db tid = []).
  { unfold open_events. apply filter_none.
    intros r Hin [Hr _]. apply Hfresh. rewrite <- Hr. by apply Hown. }
  split; simpl.
  - rewrite fmap_app. simpl. apply NoDup_app. split; [done|].
    split; [|apply NoDup_singleton].
    intros x Hx ->%list_elem_of_singleton. done.
  - intros t Ht. rewrite fmap_app, elem_of_app. simpl.
    apply elem_of_app in Ht as [Ht| ->%list_elem_of_singleton].
    + left. by apply Hpay.
    + right. simpl. left.
  - intros r Hr. rewrite fmap_app, elem_of_app. simpl.
    apply elem_of_app in Hr as [Hr| ->%list_elem_of_singleton].
    + left. by apply Hown.
    + right. simpl. left.
  - intros t Ht. unfold open_events. simpl. rewrite filter_app.
    apply elem_of_app in Ht as [Ht| ->%list_elem_of_singleton].
    + destruct (Hopen t Ht) as [r [Hr Hs]]. exists r. split; [|done].
      unfold open_events in Hr. rewrite Hr.
      rewrite filter_cons, decide_False; [done|]. simpl.
      intros [Heq _]. apply Hfresh. rewrite Heq.
      apply list_elem_of_fmap. eauto.
    + simpl. unfold open_events in Hnone. rewrite Hnone.
      rewrite filter_cons, decide_True by done. simpl. eauto.
  - intros r e Hr He.
    apply elem_of_app in Hr as [Hr| ->%list_elem_of_singleton].
    + by apply Hseal.
    + done.
Qed.

Lemma reachable_inv db : reachable db → store_inv db.
Proof.
  induction 1 as [|f now db inp _ IH|f now db tid ns res error _ IH].
  - apply store_inv_empty.
  - destruct (create_cases f now db inp)
      as [[_ ->]|(tid & wid & state & _ & _ & _ & Hfresh & _ & ->)];
      [done|]. by apply store_inv_created.
  - destruct (update_cases f now db tid ns res error)
      as [[_ ->]|(t & d & Ht & _ & ->)]; [done|].
    apply store_inv_transition; [done|]. by eapply find_task_elem.
Qed.

(** In a store that satisfies the invariant, [fetchone] on the id of a
    stored task returns that task, and its payload row is there. *)
Lemma find_task_stored db t :
  store_inv db → t ∈ tasks db → find_task (task_id t) db = Some t.
Proof.
  intros Hinv Ht.
  destruct (find_task_is_Some (task_id t) db) as [t' Ht'].
  { apply list_elem_of_fmap. eauto. }
  rewrite Ht'. f_equal.
  eapply (NoDup_key_eq task_id); [apply Hinv| |done|].
  - by eapply find_task_elem.
  - by eapply find_task_id.
Qed.

Lemma find_data_stored db t :
  store_inv db → t ∈ tasks db → is_Some (find_data (task_id t) db).
Proof. intros Hinv Ht. apply find_data_is_Some. by apply Hinv. Qed.


(** It raises, and writes nothing, when the message cannot be bound or
    the stored [results] document does not take the result. *)
Lemma update_not_ok db tid t d now new_state res error :
  find_task tid db = Some t → find_data tid db = Some d →
  (message_bindable (error_message_of error) = false →
   update_task_state NoFault now db tid new_state res error
   = (Raise OverflowError, db))
  ∧ (message_bindable (error_message_of error) = true →
     assign_result (current_state t) res (results_json d) = None →
     update_task_state NoFault now db tid new_state res error
     = (Raise TypeError, db)).
Proof.
  intros Ht Hd. split.
  - intros Hb. unfold update_task_state, update_body, insert_event,
      select_current.
    unfold_txn. simpl. rewrite Ht. simpl. by rewrite Hb.
  - intros Hb Ha. unfold update_task_state, update_body, insert_event,
      select_current.
    unfold_txn. simpl. rewrite Ht. simpl. rewrite Hb. simpl.
    destruct (truthy_opt_dict error); simpl; unfold select_results;
      rewrite ?find_data_after_error;
      try erewrite (find_data_ext tid _ db) by done;
      rewrite Hd; simpl; by rewrite Ha.
Qed.

(** ** Running [get_task] and [list_tasks] *)

Lemma get_task_absent db tid :
  find_task tid db = None → get_task NoFault db tid = Return [].
Proof.
  intros Ht. unfold get_task, get_body, select_detail. unfold_txn. simpl.
  by rewrite Ht.
Qed.

Lemma get_task_found db tid t d :
  find_task tid db = Some t → find_data tid db = Some d →
  get_task NoFault db tid
  = Return (detail_dict t d
              (sort_by entered_le
                 (filter (λ r, st_task_id r = tid) (task_states db)))).
Proof.
  intros Ht Hd. unfold get_task, get_body, select_detail. unfold_txn. simpl.
  by rewrite Ht, Hd.
Qed.

(** A fault after the connection is open never escapes [get_task]. *)
Lemma get_task_returns f db tid :
  f ≠ ConnectFault → ∃ d, get_task f db tid = Return d.
Proof.
  intros Hf. unfold get_task.
  destruct f; [|done|]; destruct (get_body _ _ _ _) as [[[? ?] ?]|?]; eauto.
Qed.

Lemma list_tasks_returns f db wf st limit :
  f ≠ ConnectFault → ∃ l, list_tasks f db wf st limit = Return l.
Proof.
  intros Hf. unfold list_tasks.
  destruct f; [|done|]; destruct (list_body _ _ _ _ _ _) as [[[? ?] ?]|?];
    eauto.
Qed.

Lemma list_tasks_nofault db wf st limit :
  list_tasks NoFault db wf st limit
  = Return (summary_dict
              <$> (if bindable limit then list_rows wf st limit db else [])).
Proof.
  unfold list_tasks, list_body, select_list. unfold_txn. simpl.
  by destruct (bindable limit).
Qed.

(** Whatever [list_tasks] returns is a list of summaries. *)
Lemma list_tasks_rows f db wf st limit :
  f ≠ ConnectFault →
  ∃ rows, list_tasks f db wf st limit = Return (summary_dict <$> rows).
Proof.
  intros Hf. destruct f as [| |[|n]]; [|done| |].
  - eexists. apply list_tasks_nofault.
  - by exists [].
  - unfold list_tasks, list_body, select_list. unfold_txn. simpl.
    destruct (bindable limit); [by eexists|by exists []].
Qed.

Global Instance updated_ge_total : Total updated_ge.
Proof. intros a b. unfold updated_ge. lia. Qed.

Global Instance updated_ge_trans : Transitive updated_ge.
Proof. intros a b c. unfold updated_ge. lia. Qed.

Lemma sql_limit_prefix {A} limit (l : list A) : sql_limit limit l `prefix_of` l.
Proof.
  unfold sql_limit. destruct (decide (limit < 0)); [done|apply prefix_take].
Qed.

Lemma sql_limit_length {A} limit (l : list A) :
  0 ≤ limit → Z.of_nat (length (sql_limit limit l)) ≤ limit.
Proof.
  intros Hl. unfold sql_limit. rewrite decide_False by lia.
  rewrite length_take. lia.
Qed.

Lemma StronglySorted_prefix {A} (R : A → A → Prop) (l k : list A) :
  l `prefix_of` k → StronglySorted R k → StronglySorted R l.
Proof. intros [k' ->] Hs. by apply StronglySorted_app_1_l in Hs. Qed.

Lemma list_rows_sorted wf st limit db :
  StronglySorted updated_ge (list_rows wf st limit db).
Proof.
  unfold list_rows. eapply StronglySorted_prefix; [apply sql_limit_prefix|].
  apply StronglySorted_sort_by; apply _.
Qed.

Lemma list_rows_elem wf st limit db t :
  t ∈ list_rows wf st limit db → t ∈ tasks db ∧ matches wf st t.
Proof.
  unfold list_rows. intros Ht.
  destruct (sql_limit_prefix limit
              (sort_by updated_ge (filter (matches wf st) (tasks db))))
    as [k Hk].
  assert (t ∈ sort_by updated_ge (filter (matches wf st) (tasks db)))
    as Hin by (rewrite Hk; apply elem_of_app; by left).
  rewrite sort_by_Permutation in Hin.
  apply list_elem_of_filter in Hin. tauto.
Qed.

Lemma matches_filters wf st t :
  matches wf st t →
  (∀ w, wf = Some w → w ≠ "" → workflow_id t = w)
  ∧ (∀ s, st = Some s → s ≠ "" → current_state t = s).
Proof.
  intros [Hw Hs]. split.
  - intros w -> Hne. apply Hw. simpl. unfold truthy_str.
    apply Is_true_true, negb_true_iff. by apply String.eqb_neq.
  - intros s -> Hne. apply Hs. simpl. unfold truthy_str.
    apply Is_true_true, negb_true_iff. by apply String.eqb_neq.
Qed.

(** ** Faults *)

Lemma create_raise_rollback f now db inp e :
  (create_task f now db inp).1 = Raise e → (create_task f now db inp).2 = db.
Proof.
  intros He.
  destruct (create_cases f now db inp) as [[_ ?]|(? & ? & ? & Hc)]; [done|].
  destruct Hc as (_ & _ & _ & _ & _ & Hc). rewrite Hc in He. done.
Qed.

(** A fault in one of the four statements of [create_task] (the three
    inserts and the commit) ends the call with an exception and nothing
    written. *)
Lemma create_fault n now db inp :
  (n ≤ 3)%nat → ∃ e, create_task (StmtFault n) now db inp = (Raise e, db).
Proof.
  intros Hn. unfold create_task, create_body, insert_task, insert_state,
    insert_data, commit.
  unfold_txn.
  destruct n as [|[|[|[|n]]]]; [| | | |lia]; simpl; eauto;
    destruct (bindable _ && bindable _); eauto;
    destruct (in_task_id inp) as [tid|], (in_workflow_id inp) as [wid|],
      (in_state inp) as [state|]; simpl; eauto;
    destruct (pk_taken tid (task_id <$> tasks db)); simpl; eauto;
    destruct (pk_taken tid (td_task_id <$> task_data db)) eqn:Hd;
    rewrite ?Hd; simpl; eauto.
Qed.

(** When the call would have returned, the exception is the fault. *)
Lemma create_fault_reraised n now db inp o db1 :
  create_task NoFault now db inp = (Return o, db1) → (n ≤ 3)%nat →
  create_task (StmtFault n) now db inp = (Raise OperationalError, db).
Proof.
  intros Hrun Hn. revert Hrun.
  unfold create_task, create_body, insert_task, insert_state,
    insert_data, commit.
  unfold_txn.
  destruct n as [|[|[|[|n]]]]; [| | | |lia]; simpl; try done;
    destruct (bindable _ && bindable _); try done;
    destruct (in_task_id inp) as [tid|], (in_workflow_id inp) as [wid|],
      (in_state inp) as [state|]; simpl; try done;
    destruct (pk_taken tid (task_id <$> tasks db)); simpl; try done;
    destruct (pk_taken tid (td_task_id <$> task_data db)) eqn:Hd;
    rewrite ?Hd; simpl; done.
Qed.

Lemma get_task_fault db tid : get_task (StmtFault 0) db tid = Return [].
Proof. done. Qed.

Lemma get_task_fault_history db t :
  store_inv db → t ∈ tasks db →
  get_task (StmtFault 1) db (task_id t) = Return [].
Proof.
  intros Hinv Ht.
  pose proof (find_task_stored db t Hinv Ht) as Hft.
  destruct (find_data_stored db t Hinv Ht) as [d Hd].
  unfold get_task, get_body, select_detail. unfold_txn. simpl.
  by rewrite Hft, Hd.
Qed.

Lemma list_tasks_fault db wf st limit :
  list_tasks (StmtFault 0) db wf st limit = Return [].
Proof. done. Qed.

(** ** The scenario is a history of the store *)

Lemma reachable_db_created : reachable Scenario.db_created.
Proof. apply reach_create, reach_empty. Qed.

Lemma reachable_db_processing : reachable Scenario.db_processing.
Proof. apply reach_update, reachable_db_created. Qed.

Lemma reachable_db_retried : reachable Scenario.db_retried.
Proof. apply reach_update, reachable_db_processing. Qed.

Lemma t1_in_db_processing :
  Scenario.t1_processing ∈ tasks Scenario.db_processing.
Proof. vm_compute. apply list_elem_of_here. Qed.


Lemma t1_in_db_retried : Scenario.t1_retried ∈ tasks Scenario.db_retried.
Proof. vm_compute. apply list_elem_of_here. Qed.

(** * Properties of the specification *)

(** C1. Single open event: in every store reached from the empty one by
    [create_task] and [update_task_state] calls, every task has exactly
    one row of [task_states] whose [exited_at] is NULL, and the
    [state_name] of that row is the task's [current_state]. *)
Theorem single_open_event db t :
  reachable db → t ∈ tasks db →
  ∃ r, open_events db (task_id t) = [r] ∧ state_name r = current_state t.
Proof. intros Hr Ht. by apply (inv_open db (reachable_inv db Hr)). Qed.

Lemma single_open_event_witness :
  ∃ r, open_events Scenario.db_retried "t1" = [r]
       ∧ state_name r = "processing".
Proof.
  apply (single_open_event Scenario.db_retried Scenario.t1_retried).
  - apply reachable_db_retried.
  - apply t1_in_db_retried.
Defined.

(** C5. Not-found stability: for a [task_id] that is not in [tasks],
    [update_task_state] returns [False] and leaves the three tables as
    they were; the tables are left as they were under any fault, too. *)
Theorem update_unknown_task db tid now new_state res error :
  tid ∉ task_id <$> tasks db →
  update_task_state NoFault now db tid new_state res error
  = (Return false, db)
  ∧ ∀ f, (update_task_state f now db tid new_state res error).2 = db.
Proof.
  intros Hid. apply find_task_None in Hid. split.
  - by apply update_absent.
  - intros f.
    destruct (update_cases f now db tid new_state res error)
      as [[_ ?]|(t & d & Ht & _)]; [done|congruence].
Qed.

Lemma update_unknown_task_witness :
  update_task_state NoFault 300 Scenario.db_retried "t2" "done"
    (Some "late") None
  = (Return false, Scenario.db_retried)
  ∧ ∀ f, (update_task_state f 300 Scenario.db_retried "t2" "done"
            (Some "late") None).2 = Scenario.db_retried.
Proof.
  apply (update_unknown_task Scenario.db_retried "t2" 300 "done"
           (Some "late") None).
  vm_compute. intros H. apply list_elem_of_singleton in H. discriminate H.
Defined.

(** C7. Duration of sealed events: every event with an exit time has
    [duration_seconds = ROUND(strftime('%s', exited_at) -
    strftime('%s', entered_at))], the whole seconds between the two
    timestamps, and the duration is not negative when [exited_at] is not
    earlier than [entered_at]. *)
Theorem sealed_duration db r e :
  reachable db → r ∈ task_states db → exited_at r = Some e →
  duration_seconds r
  = Some (sql_round (strftime_s e - strftime_s (entered_at r)))
  ∧ duration_seconds r = Some (e - entered_at r)
  ∧ (entered_at r ≤ e →
     ∃ secs, duration_seconds r = Some secs ∧ 0 ≤ secs).
Proof.
  intros Hr Hin He.
  pose proof (inv_sealed db (reachable_inv db Hr) r e Hin He) as Hd.
  split; [done|]. split; [done|].
  intros Hle. exists (e - entered_at r). split; [done|lia].
Qed.

Lemma sealed_duration_witness :
  duration_seconds Scenario.initial_event
  = Some (sql_round
            (strftime_s 160 - strftime_s (entered_at Scenario.initial_event)))
  ∧ duration_seconds Scenario.initial_event
    = Some (160 - entered_at Scenario.initial_event)
  ∧ (entered_at Scenario.initial_event ≤ 160 →
     ∃ secs, duration_seconds Scenario.initial_event = Some secs ∧ 0 ≤ secs).
Proof.
  apply (sealed_duration Scenario.db_retried Scenario.initial_event 160).
  - apply reachable_db_retried.
  - vm_compute. apply list_elem_of_here.
  - reflexivity.
Defined.




(** C10. Results are told apart by truthiness: when a transition of a
    stored task is given the empty string as result, the event it seals
    has the empty string in its [result] column, and the [results]
    mapping of the payload is left exactly as it was. *)
Theorem empty_result_not_recorded db t f now new_state error db' :
  reachable db → t ∈ tasks db →
  update_task_state f now db (task_id t) new_state (Some "") error
  = (Return true, db') →
  (∃ old sealed,
     open_events db (task_id t) = [old]
     ∧ sealed ∈ task_states db'
     ∧ st_id sealed = st_id old
     ∧ exited_at sealed = Some now
     ∧ result sealed = Some "")
  ∧ results_of db' (task_id t) = results_of db (task_id t).
Proof.
  intros Hr Ht Hrun. pose proof (reachable_inv db Hr) as Hinv.
  apply update_success in Hrun as (t' & d & Ht' & Hd & ->).
  rewrite (find_task_stored db t Hinv Ht) in Ht'. injection Ht' as <-.
  split.
  - destruct (open_events_transition t d now db new_state (Some "") error
                Hinv Ht) as (old & Hold & _ & Hsealed & _).
    exists old, (seal_row now (Some "") old). by repeat split.
  - by rewrite results_of_transition.
Qed.

Lemma empty_result_not_recorded_witness :
  (∃ old sealed,
     open_events Scenario.db_processing "t1" = [old]
     ∧ sealed ∈ task_states
                  (update_task_state NoFault 200 Scenario.db_processing
                     "t1" "done" (Some "") None).2
     ∧ st_id sealed = st_id old
     ∧ exited_at sealed = Some 200
     ∧ result sealed = Some "")
  ∧ results_of (update_task_state NoFault 200 Scenario.db_processing
                  "t1" "done" (Some "") None).2 "t1"
    = results_of Scenario.db_processing "t1".
Proof.
  apply (empty_result_not_recorded Scenario.db_processing
           Scenario.t1_processing NoFault 200 "done" None).
  - apply reachable_db_processing.
  - apply t1_in_db_processing.
  - vm_compute. reflexivity.
Defined.

(** C3, as the code has it. Result accumulation keyed by the exited
    state: when a transition of a task whose current state is [S] is
    given a non-empty result and returns [True], the [results] mapping of
    the payload has that result under [S] afterwards, and every key other
    than [S] has the value it had before. *)
Theorem result_keyed_by_exited_state f now db tid new_state r error db' t :
  find_task tid db = Some t → r ≠ "" →
  update_task_state f now db tid new_state (Some r) error
  = (Return true, db') →
  results_of db' tid !! current_state t = Some (JStr r)
  ∧ ∀ k, k ≠ current_state t →
         results_of db' tid !! k = results_of db tid !! k.
Proof.
  intros Ht Hr Hrun.
  apply update_success in Hrun as (t' & d & Ht' & Hd & ->).
  rewrite Ht in Ht'. injection Ht' as <-.
  pose proof (find_task_id _ _ _ Ht) as Hid. subst tid.
  rewrite results_of_transition by done. unfold results_after. simpl.
  assert (truthy_str r = true) as ->.
  { unfold truthy_str. by apply negb_true_iff, String.eqb_neq. }
  split.
  - apply lookup_insert_eq.
  - intros k Hk. by apply lookup_insert_ne.
Qed.

Lemma result_keyed_by_exited_state_witness :
  results_of Scenario.db_second_try "t1" !! "processing"
  = Some (JStr "second try")
  ∧ ∀ k, k ≠ "processing" →
         results_of Scenario.db_second_try "t1" !! k
         = results_of Scenario.db_retried "t1" !! k.
Proof.
  apply (result_keyed_by_exited_state NoFault 260 Scenario.db_retried "t1"
           "processing" "second try" None Scenario.db_second_try
           Scenario.t1_retried).
  - vm_compute. reflexivity.
  - discriminate.
  - vm_compute. reflexivity.
Defined.

(** C3, as it is written, fails: the second retry in ["processing"]
    returns [True] and replaces the value that key ["processing"] had, so
    not every key present before keeps its prior value; and a transition
    called with the empty string as its result records nothing under the
    exited state. *)
Lemma result_accumulation_counterexample :
  (update_task_state NoFault 260 Scenario.db_retried "t1" "processing"
     (Some "second try") None).1 = Return true
  ∧ results_of Scenario.db_retried "t1" !! "processing"
    = Some (JStr "first try")
  ∧ ¬ (∀ k v, results_of Scenario.db_retried "t1" !! k = Some v →
              results_of Scenario.db_second_try "t1" !! k = Some v)
  ∧ (update_task_state NoFault 260 Scenario.db_retried "t1" "done"
       (Some "") None).1 = Return true
  ∧ results_of Scenario.db_empty_result "t1" !! "processing"
    ≠ Some (JStr "").
Proof.
  split; [by vm_compute|]. split; [by vm_compute|]. split.
  - intros H. specialize (H "processing" (JStr "first try")).
    vm_compute in H. specialize (H eq_refl). discriminate H.
  - split; [by vm_compute|]. vm_compute. discriminate.
Qed.

(** C4, as the code has it. Derived flags after a transition: after a
    call that returns [True], [is_complete] is true exactly when
    [new_state] is the task's [completion_state], and [has_error] is true
    exactly when the [error] argument of this call is a non-empty
    mapping, whatever the flags were before. *)
Theorem derived_flags f now db tid new_state res error db' t :
  find_task tid db = Some t →
  update_task_state f now db tid new_state res error = (Return true, db') →
  ∃ t', find_task tid db' = Some t'
        ∧ current_state t' = new_state
        ∧ (is_complete t' = true ↔ new_state = completion_state t)
        ∧ (has_error t' = true ↔ ∃ e, error = Some e ∧ e ≠ ∅).
Proof.
  intros Ht Hrun.
  apply update_success in Hrun as (t' & d & Ht' & Hd & ->).
  rewrite Ht in Ht'. injection Ht' as <-.
  pose proof (find_task_id _ _ _ Ht) as Hid. subst tid.
  rewrite find_task_transition, Ht. simpl.
  eexists. split; [done|]. simpl. split; [done|]. split.
  - by rewrite bool_decide_eq_true.
  - destruct error as [e|]; simpl.
    + unfold truthy_dict. rewrite negb_true_iff, bool_decide_eq_false.
      split; [eauto|]. by intros (e' & [= <-] & ?).
    + split; [done|]. by intros (e' & ? & _).
Qed.

Lemma derived_flags_witness :
  ∃ t', find_task "t1" Scenario.db_empty_result = Some t'
        ∧ current_state t' = "done"
        ∧ (is_complete t' = true
           ↔ "done" = completion_state Scenario.t1_retried)
        ∧ (has_error t' = true ↔ ∃ e : pydict, None = Some e ∧ e ≠ ∅).
Proof.
  apply (derived_flags NoFault 260 Scenario.db_retried "t1" "done"
           (Some "") None Scenario.db_empty_result Scenario.t1_retried).
  - vm_compute. reflexivity.
  - vm_compute. reflexivity.
Defined.

(** C4, as it is written, fails: a call whose [error] argument is
    present but is the empty mapping returns [True] and leaves
    [has_error] false. *)
Lemma derived_flags_counterexample :
  (update_task_state NoFault 260 Scenario.db_retried "t1" "done" None
     (Some ∅)).1 = Return true
  ∧ has_error <$> find_task "t1" Scenario.db_empty_error = Some false.
Proof. split; by vm_compute. Qed.

(** C6, as the code has it. [get_task] on an absent task returns the
    empty mapping.  When no fault is caught this differs from what
    [get_task] returns for any stored task, whose mapping always starts
    with its [task_id], also when all its payload fields are empty; but
    when a fault is caught in either of its two statements, [get_task]
    returns the same empty mapping for a stored task. *)
Theorem get_task_not_found_distinct db absent present :
  reachable db →
  absent ∉ task_id <$> tasks db →
  present ∈ task_id <$> tasks db →
  get_task NoFault db absent = Return []
  ∧ (∃ found, get_task NoFault db present = Return found
              ∧ found ≠ []
              ∧ found !! 0%nat = Some ("task_id", VCell (CText present)))
  ∧ get_task (StmtFault 0) db present = Return []
  ∧ get_task (StmtFault 1) db present = Return [].
Proof.
  intros Hr Ha Hp. pose proof (reachable_inv db Hr) as Hinv. split.
  { apply get_task_absent. by apply find_task_None. }
  apply list_elem_of_fmap in Hp as [t [-> Ht]].
  split; [|split].
  - destruct (find_data_stored db t Hinv Ht) as [d Hd].
    rewrite (get_task_found db (task_id t) t d);
      [|by apply find_task_stored|done].
    eexists. split; [done|]. split; done.
  - apply get_task_fault.
  - by apply get_task_fault_history.
Qed.

Lemma get_task_not_found_distinct_witness :
  get_task NoFault Scenario.db_bare "t1" = Return []
  ∧ (∃ found, get_task NoFault Scenario.db_bare "t0" = Return found
              ∧ found ≠ []
              ∧ found !! 0%nat = Some ("task_id", VCell (CText "t0")))
  ∧ get_task (StmtFault 0) Scenario.db_bare "t0" = Return []
  ∧ get_task (StmtFault 1) Scenario.db_bare "t0" = Return [].
Proof.
  apply (get_task_not_found_distinct Scenario.db_bare "t1" "t0").
  - apply reach_create, reach_empty.
  - vm_compute. intros H. apply list_elem_of_singleton in H. discriminate H.
  - vm_compute. apply list_elem_of_here.
Defined.

(** C6, as it is written, fails: for the stored task ["t0"], whose
    payload fields are all empty, a fault caught while its history is
    read makes [get_task] return the very value it returns for the
    absent id ["t1"]. *)
Lemma get_task_not_found_counterexample :
  reachable Scenario.db_bare
  ∧ Scenario.t0_bare ∈ tasks Scenario.db_bare
  ∧ ("t1" ∉ task_id <$> tasks Scenario.db_bare)
  ∧ get_task (StmtFault 1) Scenario.db_bare "t0"
    = get_task NoFault Scenario.db_bare "t1".
Proof.
  split; [apply reach_create, reach_empty|].
  split; [vm_compute; apply list_elem_of_here|].
  split; [|by vm_compute].
  vm_compute. intros H. apply list_elem_of_singleton in H. discriminate H.
Qed.

(** C9, as the code has it. [list_tasks] returns summaries of stored
    tasks only; each of them matches every filter that is given and is
    not the empty string (a filter that is [None] or empty restricts
    nothing); the summaries are ordered by [updated_at] descending; when
    [limit] is not negative at most [limit] of them are returned (a
    negative [limit] truncates nothing): what is returned is the first
    [limit] rows of the matching tasks put in descending order of
    [updated_at]; and every summary has the eight columns of the
    projection and nothing else. *)
Theorem list_tasks_summaries db wf st limit :
  ∃ rows,
    list_tasks NoFault db wf st limit = Return (summary_dict <$> rows)
    ∧ (∀ t, t ∈ rows →
         t ∈ tasks db
         ∧ (∀ w, wf = Some w → w ≠ "" → workflow_id t = w)
         ∧ (∀ s, st = Some s → s ≠ "" → current_state t = s))
    ∧ StronglySorted updated_ge rows
    ∧ (0 ≤ limit → Z.of_nat (length rows) ≤ limit)
    ∧ (int64 limit →
       ∃ sorted, sorted ≡ₚ filter (matches wf st) (tasks db)
                 ∧ StronglySorted updated_ge sorted
                 ∧ rows = sql_limit limit sorted)
    ∧ (∀ s, s ∈ summary_dict <$> rows →
         s.*1 = ["task_id"; "workflow_id"; "workflow_name"; "current_state";
                 "created_at"; "updated_at"; "is_complete"; "has_error"]).
Proof.
  exists (if bindable limit then list_rows wf st limit db else []).
  split; [apply list_tasks_nofault|].
  unfold bindable. destruct (bool_decide (int64 limit)) eqn:Hb.
  - split; [|split; [|split; [|split]]].
    + intros t [Ht Hm]%list_rows_elem. split; [done|].
      by apply matches_filters.
    + apply list_rows_sorted.
    + intros Hl. by apply sql_limit_length.
    + intros _.
      exists (sort_by updated_ge (filter (matches wf st) (tasks db))).
      split; [apply sort_by_Permutation|].
      split; [apply StronglySorted_sort_by; apply _|done].
    + by intros s [t [-> _]]%list_elem_of_fmap.
  - apply bool_decide_eq_false in Hb.
    split; [|split; [|split; [|split]]].
    + by intros t Ht%not_elem_of_nil.
    + constructor.
    + simpl. lia.
    + done.
    + by intros s [t [_ Ht%not_elem_of_nil]]%list_elem_of_fmap.
Qed.

Lemma list_tasks_summaries_witness :
  ∃ rows,
    list_tasks NoFault Scenario.db_retried (Some "wf-1") (Some "processing") 1
    = Return (summary_dict <$> rows)
    ∧ (∀ t, t ∈ rows →
         t ∈ tasks Scenario.db_retried
         ∧ workflow_id t = "wf-1" ∧ current_state t = "processing")
    ∧ StronglySorted updated_ge rows
    ∧ Z.of_nat (length rows) ≤ 1
    ∧ (∃ sorted,
         sorted ≡ₚ filter (matches (Some "wf-1") (Some "processing"))
                     (tasks Scenario.db_retried)
         ∧ StronglySorted updated_ge sorted
         ∧ rows = sql_limit 1 sorted)
    ∧ (∀ s, s ∈ summary_dict <$> rows →
         s.*1 = ["task_id"; "workflow_id"; "workflow_name"; "current_state";
                 "created_at"; "updated_at"; "is_complete"; "has_error"]).
Proof.
  destruct (list_tasks_summaries Scenario.db_retried (Some "wf-1")
              (Some "processing") 1)
    as (rows & Hrun & Hrows & Hsorted & Hlen & Hperm & Hkeys).
  exists rows. split; [exact Hrun|]. split.
  - intros t Ht. destruct (Hrows t Ht) as (Hin & Hw & Hs).
    split; [exact Hin|]. split.
    + apply (Hw "wf-1"); [reflexivity|discriminate].
    + apply (Hs "processing"); [reflexivity|discriminate].
  - split; [exact Hsorted|]. split; [apply Hlen; lia|].
    split; [apply Hperm; unfold int64; lia|exact Hkeys].
Defined.

(** C9, as it is written, fails: with the empty string given as the
    [workflow_id] filter the task of workflow ["wf-1"] is returned, and
    with [limit = -1] one summary is returned, which is more than the
    limit. *)
Lemma list_tasks_counterexample :
  list_tasks NoFault Scenario.db_retried (Some "") None 100
  = Return [summary_dict Scenario.t1_retried]
  ∧ workflow_id Scenario.t1_retried ≠ ""
  ∧ list_tasks NoFault Scenario.db_retried None None (-1)
    = Return [summary_dict Scenario.t1_retried]
  ∧ ¬ (Z.of_nat (length [summary_dict Scenario.t1_retried]) ≤ -1).
Proof.
  split; [by vm_compute|]. split; [discriminate|].
  split; [by vm_compute|]. simpl. lia.
Qed.

(** C2, as the code has it. Fault policy: a storage fault that strikes
    after the connection is open never escapes [get_task] and
    [list_tasks], which return the empty mapping and the empty list;
    [create_task] rolls the transaction back, so that the three tables
    are as they were before the call, and raises the fault to its
    caller; and a fault in a statement of [update_task_state] (it runs
    seven, and eight when [error] is not empty) never ends in [True],
    the three tables being as they were before the call whenever the
    call does not return [True]. *)
Theorem fault_policy f now db inp t new_state res error wf st limit :
  reachable db → t ∈ tasks db → f ≠ ConnectFault →
  ((∃ d, get_task f db (task_id t) = Return d)
   ∧ get_task (StmtFault 0) db (task_id t) = Return []
   ∧ get_task (StmtFault 1) db (task_id t) = Return [])
  ∧ ((∃ l, list_tasks f db wf st limit = Return l)
     ∧ list_tasks (StmtFault 0) db wf st limit = Return [])
  ∧ ((∀ e, (create_task f now db inp).1 = Raise e →
           (create_task f now db inp).2 = db)
     ∧ (∀ n, (n ≤ 3)%nat →
             ∃ e, create_task (StmtFault n) now db inp = (Raise e, db))
     ∧ ∀ n o db1, (n ≤ 3)%nat →
         create_task NoFault now db inp = (Return o, db1) →
         create_task (StmtFault n) now db inp
         = (Raise OperationalError, db))
  ∧ (((update_task_state f now db (task_id t) new_state res error).1
      ≠ Return true →
      (update_task_state f now db (task_id t) new_state res error).2 = db)
     ∧ ∀ n, (n ≤ if truthy_opt_dict error then 7 else 6)%nat →
         let r := update_task_state (StmtFault n) now db (task_id t)
                    new_state res error in
         r.1 ≠ Return true ∧ r.2 = db).
Proof.
  intros Hr Ht Hf. pose proof (reachable_inv db Hr) as Hinv.
  split; [|split; [|split]].
  - split; [by apply get_task_returns|].
    split; [apply get_task_fault|by apply get_task_fault_history].
  - split; [by apply list_tasks_returns|apply list_tasks_fault].
  - split; [apply create_raise_rollback|].
    split; [intros n Hn; by apply create_fault|].
    intros n o db1 Hn Hrun. by eapply create_fault_reraised.
  - split.
    + by apply update_not_true_rollback.
    + intros n Hn r. subst r.
      pose proof (update_fault_not_true n now db (task_id t) new_state res
                    error Hn) as Hne.
      split; [done|]. by apply update_not_true_rollback.
Qed.

Lemma fault_policy_witness :
  get_task (StmtFault 1) Scenario.db_retried "t1" = Return []
  ∧ list_tasks (StmtFault 0) Scenario.db_retried None None 100 = Return []
  ∧ create_task (StmtFault 2) 300 Scenario.db_retried Scenario.bare_input
    = (Raise OperationalError, Scenario.db_retried)
  ∧ (update_task_state (StmtFault 5) 300 Scenario.db_retried "t1" "done"
       (Some "ok") None).1 ≠ Return true
  ∧ (update_task_state (StmtFault 5) 300 Scenario.db_retried "t1" "done"
       (Some "ok") None).2 = Scenario.db_retried.
Proof.
  destruct (fault_policy (StmtFault 5) 300 Scenario.db_retried
              Scenario.bare_input Scenario.t1_retried "done" (Some "ok")
              None None None 100)
    as ((_ & _ & Hget) & (_ & Hlist) & (_ & _ & Hcreate) & (_ & Hupdate)).
  - apply reachable_db_retried.
  - apply t1_in_db_retried.
  - discriminate.
  - split; [exact Hget|]. split; [exact Hlist|]. split.
    + eapply (Hcreate 2%nat); [lia|]. vm_compute. reflexivity.
    + apply (Hupdate 5%nat). simpl. lia.
Defined.

(** C2, as it is written, fails: a storage fault in the second statement
    of [create_task], a call that returns the task id when nothing
    fails, reaches the caller as the raised exception and not as a
    result. *)
Lemma fault_policy_counterexample :
  (∃ db', create_task NoFault 300 Scenario.db_retried Scenario.bare_input
          = (Return (Some "t0"), db'))
  ∧ create_task (StmtFault 1) 300 Scenario.db_retried Scenario.bare_input
    = (Raise OperationalError, Scenario.db_retried).
Proof. split; [eexists|]; by vm_compute. Qed.

(** * Further properties of the store *)

(** ** One operation at a time *)

Lemma apply_op_cases db o :
  apply_op db o = db
  ∨ (∃ tid wid state inp now,
       (tid ∉ (task_id <$> tasks db))
       ∧ apply_op db o = created tid wid state inp now db)
  ∨ (∃ t d now new_state res error,
       find_task (task_id t) db = Some t
       ∧ find_data (task_id t) db = Some d
       ∧ apply_op db o = transition t d now db new_state res error).
Proof.
  destruct o as [f now inp|f now tid new_state res error]; simpl.
  - destruct (create_cases f now db inp)
      as [[_ ->]|(tid & wid & state & _ & _ & _ & Hfresh & _ & ->)];
      [by left|]. right. left. by exists tid, wid, state, inp, now.
  - destruct (update_cases f now db tid new_state res error)
      as [[_ ->]|(t & d & Ht & Hd & ->)]; [by left|].
    right. right. pose proof (find_task_id _ _ _ Ht) as <-.
    by exists t, d, now, new_state, res, error.
Qed.

Lemma reachable_run_ops db ops : reachable db → reachable (run_ops db ops).
Proof.
  revert db. induction ops as [|o ops IH]; intros db Hr; [done|].
  simpl. apply IH. destruct o; simpl; by constructor.
Qed.

Lemma run_ops_app db ops1 ops2 :
  run_ops db (ops1 ++ ops2) = run_ops (run_ops db ops1) ops2.
Proof. unfold run_ops. apply foldl_app. Qed.

Lemma reachable_is_run db : reachable db → ∃ ops, db = run_ops empty_db ops.
Proof.
  induction 1 as [|f now db inp _ [ops ->]|f now db tid ns res error _ [ops ->]].
  - by exists [].
  - exists (ops ++ [OpCreate f now inp]). by rewrite run_ops_app.
  - exists (ops ++ [OpUpdate f now tid ns res error]). by rewrite run_ops_app.
Qed.

(** A relation between the store before and after that holds for doing
    nothing, for a creation and for a transition, and is transitive,
    holds across every sequence of operations. *)
Lemma run_ops_ind (R : DB → DB → Prop) :
  (∀ db, R db db) →
  (∀ a b c, R a b → R b c → R a c) →
  (∀ db o, R db (apply_op db o)) →
  ∀ db ops, R db (run_ops db ops).
Proof.
  intros Hrefl Htrans Hstep db ops. revert db.
  induction ops as [|o ops IH]; intros db; [apply Hrefl|].
  simpl. eapply Htrans; [apply Hstep|apply IH].
Qed.

(** ** Histories *)

Lemma history_elem db tid r :
  r ∈ history db tid ↔ r ∈ task_states db ∧ st_task_id r = tid.
Proof. unfold history. rewrite list_elem_of_filter. tauto. Qed.

Lemma history_created_other tid wid state inp now db tid' :
  tid' ≠ tid →
  history (created tid wid state inp now db) tid' = history db tid'.
Proof.
  intros Hne. unfold history. simpl. rewrite filter_app.
  rewrite filter_cons, decide_False by (simpl; congruence).
  by rewrite filter_nil, app_nil_r.
Qed.

Lemma history_created_self tid wid state inp now db :
  store_inv db → tid ∉ task_id <$> tasks db →
  history (created tid wid state inp now db) tid
  = [StateRow (next_id (task_states db)) tid state now None None None
       false None].
Proof.
  intros Hinv Hfresh. unfold history. simpl. rewrite filter_app.
  rewrite filter_none.
  - by rewrite filter_cons, decide_True.
  - intros r Hr Hid. apply Hfresh. rewrite <- Hid. by apply Hinv.
Qed.

Lemma history_transition_other t d now db new_state res error tid' :
  tid' ≠ task_id t →
  history (transition t d now db new_state res error) tid'
  = history db tid'.
Proof.
  intros Hne. unfold history. simpl. rewrite filter_app.
  rewrite filter_cons, decide_False by (simpl; congruence).
  rewrite filter_nil, app_nil_r. unfold seal_states.
  apply filter_fmap_stable. intros r _.
  destruct (decide (is_open_in _ _ r)) as [[Hr _]|_]; [|done].
  simpl. split; intros ?; congruence.
Qed.

Lemma contiguous_app_open h r :
  contiguous (h ++ [r]) → exited_at r = None.
Proof.
  induction h as [|a h IH]; simpl.
  - tauto.
  - intros [_ Hc]. by apply IH.
Qed.

(** Sealing a history without gaps and entering a new event at the same
    moment gives a history without gaps. *)
Lemma contiguous_seal now res tid cur h new :
  contiguous h →
  (∀ r, r ∈ h → st_task_id r = tid) →
  (∀ r, last h = Some r → state_name r = cur) →
  entered_at new = now → exited_at new = None →
  contiguous (seal_states now res tid cur h ++ [new]).
Proof.
  intros Hc Hid Hlast Hnow Hopen. induction h as [|r h IH]; [done|].
  destruct h as [|r' h].
  - simpl in *. destruct Hc as [Hex _].
    rewrite decide_True; [simpl; by rewrite Hnow|].
    split; [apply Hid; left|]. split; [by apply Hlast|done].
  - destruct Hc as [Hex Hc].
    change (seal_states now res tid cur (r :: r' :: h))
      with ((if decide (is_open_in tid cur r) then seal_row now res r else r)
            :: seal_states now res tid cur (r' :: h)).
    rewrite decide_False by (intros (_ & _ & ?); congruence).
    split.
    + simpl. rewrite Hex. by destruct (decide (is_open_in tid cur r')).
    + apply IH; [done| |].
      * intros x Hx. apply Hid. by right.
      * intros x Hx. by apply Hlast.
Qed.

Lemma head_seal_entered now res tid cur h :
  entered_at <$> head (seal_states now res tid cur h)
  = entered_at <$> head h.
Proof. destruct h as [|r h]; [done|]. simpl. by destruct (decide _). Qed.

Lemma history_nonempty_of_last db tid r :
  last (history db tid) = Some r → history db tid ≠ [].
Proof. by destruct (history db tid). Qed.

Lemma history_inv_empty : history_inv empty_db.
Proof.
  split; simpl; try done.
  all: intros x Hx; by apply not_elem_of_nil in Hx.
Qed.

Lemma history_inv_created tid wid state inp now db :
  store_inv db → history_inv db →
  tid ∉ task_id <$> tasks db →
  history_inv (created tid wid state inp now db).
Proof.
  intros Hinv [Hids Hev Hod Hc Hf Hl Hcm Hrt] Hfresh.
  assert (Hold : ∀ t, t ∈ tasks db → task_id t ≠ tid).
  { intros t Ht Heq. apply Hfresh. rewrite <- Heq.
    apply list_elem_of_fmap. eauto. }
  split; simpl.
  - by rewrite !fmap_app, Hids.
  - intros i r Hi. apply lookup_app_Some in Hi as [Hi|[Hlen Hi]].
    + by apply Hev.
    + apply list_lookup_singleton_Some in Hi as [Hi <-]. simpl.
      unfold next_id. lia.
  - intros r [Hr| ->%list_elem_of_singleton]%elem_of_app He; [|done].
    by apply Hod.
  - intros t [Ht| ->%list_elem_of_singleton]%elem_of_app.
    + rewrite history_created_other by auto. by apply Hc.
    + simpl. by rewrite history_created_self.
  - intros t [Ht| ->%list_elem_of_singleton]%elem_of_app.
    + rewrite history_created_other by auto. by apply Hf.
    + simpl. by rewrite history_created_self.
  - intros t [Ht| ->%list_elem_of_singleton]%elem_of_app.
    + rewrite history_created_other by auto. by apply Hl.
    + simpl. rewrite history_created_self by done. eauto.
  - intros t [Ht| ->%list_elem_of_singleton]%elem_of_app; [by apply Hcm|done].
  - intros t [Ht| ->%list_elem_of_singleton]%elem_of_app; [by apply Hrt|done].
Qed.

Lemma history_inv_transition t d now db new_state res error :
  store_inv db → history_inv db → t ∈ tasks db →
  history_inv (transition t d now db new_state res error).
Proof.
  intros Hinv [Hids Hev Hod Hc Hf Hl Hcm Hrt] Ht.
  split.
  - by rewrite data_ids_transition, task_ids_transition.
  - intros i r Hi. simpl in Hi.
    apply lookup_app_Some in Hi as [Hi|[Hlen Hi]].
    + unfold seal_states in Hi. rewrite list_lookup_fmap in Hi.
      destruct (task_states db !! i) as [r0|] eqn:Hr0; [|done].
      simpl in Hi. injection Hi as <-.
      destruct (decide _); simpl; by apply Hev.
    + apply list_lookup_singleton_Some in Hi as [Hi <-]. simpl.
      unfold seal_states in Hi, Hlen. rewrite length_fmap in Hi, Hlen.
      unfold next_id. lia.
  - intros r Hr He. simpl in Hr.
    apply elem_of_app in Hr as [Hr| ->%list_elem_of_singleton]; [|done].
    unfold seal_states in Hr.
    apply list_elem_of_fmap in Hr as [r' [-> Hr']].
    destruct (decide _); [done|by apply Hod].
  - intros t' Ht'. simpl in Ht'.
    apply list_elem_of_fmap in Ht' as [t0 [-> Ht0]].
    destruct (decide (task_id t0 = task_id t)) as [Heq|Hne]; simpl.
    + rewrite Heq, history_transition.
      destruct (Hl t Ht) as (r & Hr & _ & Hs & _).
      apply contiguous_seal; try done.
      * by apply Hc.
      * intros x Hx. by apply history_elem in Hx as [_ ?].
      * intros x Hx. congruence.
    + rewrite history_transition_other by done. by apply Hc.
  - intros t' Ht'. simpl in Ht'.
    apply list_elem_of_fmap in Ht' as [t0 [-> Ht0]].
    destruct (decide (task_id t0 = task_id t)) as [Heq|Hne]; simpl.
    + rewrite Heq, history_transition.
      destruct (Hl t Ht) as (r & Hr & _).
      assert (t0 = t) as -> by
        (by eapply (NoDup_key_eq task_id); [apply Hinv|..]).
      pose proof (Hf t Ht) as Hhead.
      destruct (history db (task_id t)) as [|r1 h]; [done|].
      simpl in *. by destruct (decide _).
    + rewrite history_transition_other by done. by apply Hf.
  - intros t' Ht'. simpl in Ht'.
    apply list_elem_of_fmap in Ht' as [t0 [-> Ht0]].
    destruct (decide (task_id t0 = task_id t)) as [Heq|Hne]; simpl.
    + rewrite Heq, history_transition, last_snoc. eauto.
    + rewrite history_transition_other by done. by apply Hl.
  - intros t' Ht'. simpl in Ht'.
    apply list_elem_of_fmap in Ht' as [t0 [-> Ht0]].
    destruct (decide (task_id t0 = task_id t)) as [Heq|Hne]; simpl.
    + assert (t0 = t) as -> by
        (by eapply (NoDup_key_eq task_id); [apply Hinv|..]).
      by intros ?%bool_decide_eq_true.
    + by apply Hcm.
  - intros t' Ht'. simpl in Ht'.
    apply list_elem_of_fmap in Ht' as [t0 [-> Ht0]].
    destruct (decide _); simpl; by apply Hrt.
Qed.

Lemma reachable_history_inv db : reachable db → history_inv db.
Proof.
  induction 1 as [|f now db inp Hr IH|f now db tid ns res error Hr IH].
  - apply history_inv_empty.
  - destruct (create_cases f now db inp)
      as [[_ ->]|(tid & wid & state & _ & _ & _ & Hfresh & _ & ->)];
      [done|]. apply history_inv_created; [by apply reachable_inv|done..].
  - destruct (update_cases f now db tid ns res error)
      as [[_ ->]|(t & d & Ht & _ & ->)]; [done|].
    apply history_inv_transition; [by apply reachable_inv|done|].
    by eapply find_task_elem.
Qed.

(** ** Identifiers *)

(** X1. In every reachable store [tasks] and [task_data] hold the same
    task ids in the same order, and no id occurs twice: every task has
    exactly one payload row and every payload row has its task. *)
Theorem payload_one_to_one db :
  reachable db →
  td_task_id <$> task_data db = task_id <$> tasks db
  ∧ NoDup (task_id <$> tasks db)
  ∧ ∀ t, t ∈ tasks db →
         ∃ d, find_data (task_id t) db = Some d
              ∧ find_task (task_id t) db = Some t.
Proof.
  intros Hr. pose proof (reachable_inv db Hr) as Hinv.
  split; [apply (hinv_payload_ids db (reachable_history_inv db Hr))|].
  split; [apply Hinv|]. intros t Ht.
  destruct (find_data_stored db t Hinv Ht) as [d Hd].
  exists d. split; [done|]. by apply find_task_stored.
Qed.

Lemma payload_one_to_one_witness :
  td_task_id <$> task_data Scenario.db_retried
  = task_id <$> tasks Scenario.db_retried
  ∧ NoDup (task_id <$> tasks Scenario.db_retried)
  ∧ ∀ t, t ∈ tasks Scenario.db_retried →
         ∃ d, find_data (task_id t) Scenario.db_retried = Some d
              ∧ find_task (task_id t) Scenario.db_retried = Some t.
Proof.
  apply (payload_one_to_one Scenario.db_retried).
  apply reachable_db_retried.
Defined.

(** X2. In every reachable store the AUTOINCREMENT ids of [task_states]
    count the rows from 1 in insertion order, so no two events share an
    id, and every event belongs to a stored task. *)
Theorem event_ids_unique db :
  reachable db →
  (∀ i r, task_states db !! i = Some r → st_id r = Z.of_nat i + 1)
  ∧ NoDup (st_id <$> task_states db)
  ∧ ∀ r, r ∈ task_states db → st_task_id r ∈ task_id <$> tasks db.
Proof.
  intros Hr. pose proof (reachable_history_inv db Hr) as Hh.
  split; [apply Hh|]. split; [|apply (reachable_inv db Hr)].
  apply NoDup_alt. intros i j x Hi Hj.
  rewrite list_lookup_fmap in Hi, Hj.
  destruct (task_states db !! i) as [ri|] eqn:Hri; [|done].
  destruct (task_states db !! j) as [rj|] eqn:Hrj; [|done].
  simpl in *. injection Hi as <-. injection Hj as Hj.
  rewrite (hinv_event_ids db Hh i ri Hri) in Hj.
  rewrite (hinv_event_ids db Hh j rj Hrj) in Hj. lia.
Qed.

Lemma event_ids_unique_witness :
  (∀ i r, task_states Scenario.db_retried !! i = Some r →
          st_id r = Z.of_nat i + 1)
  ∧ NoDup (st_id <$> task_states Scenario.db_retried)
  ∧ ∀ r, r ∈ task_states Scenario.db_retried →
         st_task_id r ∈ task_id <$> tasks Scenario.db_retried.
Proof.
  apply (event_ids_unique Scenario.db_retried). apply reachable_db_retried.
Defined.

(** ** Histories without gaps *)

(** X3. In every reachable store the events of a task, in insertion
    order, form a history without gaps: the first event was entered at
    the task's [created_at], every event but the last has as [exited_at]
    the [entered_at] of the next one, and the last event is open, was
    entered at the task's [updated_at], carries its [current_state] and
    its [has_error] flag. *)
Theorem history_contiguous db t :
  reachable db → t ∈ tasks db →
  ∃ first final,
    head (history db (task_id t)) = Some first
    ∧ last (history db (task_id t)) = Some final
    ∧ contiguous (history db (task_id t))
    ∧ entered_at first = created_at t
    ∧ exited_at final = None
    ∧ entered_at final = updated_at t
    ∧ state_name final = current_state t
    ∧ st_has_error final = has_error t.
Proof.
  intros Hr Ht. pose proof (reachable_history_inv db Hr) as Hh.
  destruct (hinv_last db Hh t Ht) as (final & Hlast & He & Hs & Hf).
  pose proof (hinv_first db Hh t Ht) as Hfirst.
  pose proof (hinv_contiguous db Hh t Ht) as Hc.
  destruct (head (history db (task_id t))) as [first|] eqn:Hhead; [|done].
  exists first, final. injection Hfirst as Hfirst.
  repeat split; try done.
  apply last_Some in Hlast as [h Hlast]. rewrite Hlast in Hc.
  by apply contiguous_app_open in Hc.
Qed.

Lemma history_contiguous_witness :
  ∃ first final,
    head (history Scenario.db_retried "t1") = Some first
    ∧ last (history Scenario.db_retried "t1") = Some final
    ∧ contiguous (history Scenario.db_retried "t1")
    ∧ entered_at first = 100
    ∧ exited_at final = None
    ∧ entered_at final = 200
    ∧ state_name final = "processing"
    ∧ st_has_error final = false.
Proof.
  apply (history_contiguous Scenario.db_retried Scenario.t1_retried).
  - apply reachable_db_retried.
  - apply t1_in_db_retried.
Defined.

Lemma total_duration_telescopes h first final :
  contiguous h →
  (∀ r e, r ∈ h → exited_at r = Some e →
          duration_seconds r = Some (e - entered_at r)) →
  (∀ r, r ∈ h → exited_at r = None → duration_seconds r = None) →
  head h = Some first → last h = Some final →
  total_duration h = entered_at final - entered_at first.
Proof.
  revert first. induction h as [|r h IH]; intros first Hc Hs Ho Hh Hl;
    [done|].
  injection Hh as <-. destruct h as [|r' h].
  - injection Hl as <-. destruct Hc as [Hex _]. simpl.
    rewrite (Ho r) by (done || left). simpl. lia.
  - destruct Hc as [Hex Hc].
    change (total_duration (r :: r' :: h))
      with (default 0 (duration_seconds r) + total_duration (r' :: h)).
    rewrite (IH r'); try done.
    + rewrite (Hs r (entered_at r')) by (done || left). simpl. lia.
    + intros x e Hx. apply Hs. by right.
    + intros x Hx. apply Ho. by right.
Qed.

(** X4. In every reachable store the [duration_seconds] of the events of
    a task add up to [updated_at - created_at] of the task: the sealed
    events account for all the time between the creation and the last
    transition, whatever the clock did in between. *)
Theorem durations_add_up db t :
  reachable db → t ∈ tasks db →
  total_duration (history db (task_id t)) = updated_at t - created_at t.
Proof.
  intros Hr Ht. pose proof (reachable_history_inv db Hr) as Hh.
  pose proof (reachable_inv db Hr) as Hinv.
  destruct (hinv_last db Hh t Ht) as (final & Hlast & He & _).
  pose proof (hinv_first db Hh t Ht) as Hfirst.
  destruct (head (history db (task_id t))) as [first|] eqn:Hhead; [|done].
  injection Hfirst as Hfirst.
  rewrite (total_duration_telescopes _ first final); try done.
  - lia.
  - by apply Hh.
  - intros r e [Hin _]%history_elem. by apply Hinv.
  - intros r [Hin _]%history_elem. by apply Hh.
Qed.

Lemma durations_add_up_witness :
  total_duration (history Scenario.db_retried "t1") = 200 - 100.
Proof.
  apply (durations_add_up Scenario.db_retried Scenario.t1_retried).
  - apply reachable_db_retried.
  - apply t1_in_db_retried.
Defined.

(** X5. In every reachable store a task whose [is_complete] flag is set
    is in its [completion_state]. *)
Theorem complete_in_completion_state db t :
  reachable db → t ∈ tasks db → is_complete t = true →
  current_state t = completion_state t.
Proof.
  intros Hr Ht. apply (hinv_complete db (reachable_history_inv db Hr) t Ht).
Qed.

Lemma reachable_db_done : reachable Example.db_done.
Proof. apply reach_update, reachable_db_retried. Qed.

Lemma reachable_db_two : reachable Example.db_two.
Proof. apply reach_create, reachable_db_done. Qed.

Lemma reachable_db_failed : reachable Example.db_failed.
Proof. apply reach_update, reachable_db_two. Qed.

Lemma complete_in_completion_state_witness :
  current_state Example.t1_done = completion_state Example.t1_done.
Proof.
  apply (complete_in_completion_state Example.db_done Example.t1_done).
  - apply reachable_db_done.
  - vm_compute. apply list_elem_of_here.
  - reflexivity.
Defined.

(** ** What no operation ever writes *)

Lemma task_fixed_transition t d now db new_state res error :
  task_fixed <$> tasks (transition t d now db new_state res error)
  = task_fixed <$> tasks db.
Proof.
  simpl. rewrite <- list_fmap_compose. apply list_fmap_ext.
  intros _ t' _. simpl. by destruct (decide _).
Qed.

Lemma payload_fixed_transition t d now db new_state res error :
  payload_fixed <$> task_data (transition t d now db new_state res error)
  = payload_fixed <$> task_data db.
Proof.
  simpl. rewrite <- list_fmap_compose. apply list_fmap_ext.
  intros _ d' _. simpl. destruct (decide _); [|done].
  unfold payload_after. by destruct (truthy_opt_dict error).
Qed.

Lemma event_fixed_seal now res tid cur l :
  event_fixed <$> seal_states now res tid cur l = event_fixed <$> l.
Proof.
  unfold seal_states. rewrite <- list_fmap_compose. apply list_fmap_ext.
  intros _ r _. simpl. by destruct (decide _).
Qed.

(** X6. Across any sequence of [create_task] and [update_task_state]
    calls, no task is removed or reordered, and the columns [task_id],
    [workflow_id], [workflow_name], [workflow_version],
    [completion_state], [created_at], [creator_id], [priority],
    [max_retries], [retry_count] and [timeout_seconds] of a stored task
    keep the values it was created with. *)
Theorem task_columns_fixed db ops :
  task_fixed <$> tasks db `prefix_of` task_fixed <$> tasks (run_ops db ops).
Proof.
  apply (run_ops_ind
           (λ a b, task_fixed <$> tasks a `prefix_of` task_fixed <$> tasks b)).
  - done.
  - intros a b c Hab Hbc. by etrans.
  - intros a o. destruct (apply_op_cases a o)
      as [->|[(tid & wid & st & inp & now & _ & ->)
             |(t & d & now & ns & res & err & _ & _ & ->)]].
    + done.
    + simpl. rewrite fmap_app. by apply prefix_app_r.
    + by rewrite task_fixed_transition.
Qed.

(** X7. Across any sequence of calls no payload row is removed or
    reordered, and its [prompt], [context], [parameters] and
    [next_states] keep the values given at creation: transitions write
    [results] and [error_details] only. *)
Theorem payload_columns_fixed db ops :
  payload_fixed <$> task_data db
  `prefix_of` payload_fixed <$> task_data (run_ops db ops).
Proof.
  apply (run_ops_ind
           (λ a b, payload_fixed <$> task_data a
                   `prefix_of` payload_fixed <$> task_data b)).
  - done.
  - intros a b c Hab Hbc. by etrans.
  - intros a o. destruct (apply_op_cases a o)
      as [->|[(tid & wid & st & inp & now & _ & ->)
             |(t & d & now & ns & res & err & _ & _ & ->)]].
    + done.
    + simpl. rewrite fmap_app. by apply prefix_app_r.
    + by rewrite payload_fixed_transition.
Qed.

(** X8. The history is append-only: across any sequence of calls no
    event is removed or reordered, and its [id], [task_id], [state_name],
    [entered_at], [has_error] and [error_message] keep the values
    inserted; only the exit columns are filled in later. *)
Theorem events_append_only db ops :
  event_fixed <$> task_states db
  `prefix_of` event_fixed <$> task_states (run_ops db ops).
Proof.
  apply (run_ops_ind
           (λ a b, event_fixed <$> task_states a
                   `prefix_of` event_fixed <$> task_states b)).
  - done.
  - intros a b c Hab Hbc. by etrans.
  - intros a o. destruct (apply_op_cases a o)
      as [->|[(tid & wid & st & inp & now & _ & ->)
             |(t & d & now & ns & res & err & _ & _ & ->)]].
    + done.
    + simpl. rewrite fmap_app. by apply prefix_app_r.
    + simpl. rewrite fmap_app, event_fixed_seal. by apply prefix_app_r.
Qed.

(** X9. A sealed event is final: an event whose [exited_at] is set is
    left exactly as it is, at its place, by every later sequence of
    calls; its exit time, duration and result are written once. *)
Theorem sealed_events_final db ops i r :
  task_states db !! i = Some r → is_Some (exited_at r) →
  task_states (run_ops db ops) !! i = Some r.
Proof.
  revert i r.
  apply (run_ops_ind
           (λ a b, ∀ i r, task_states a !! i = Some r →
                          is_Some (exited_at r) →
                          task_states b !! i = Some r)).
  - done.
  - intros a b c Hab Hbc i r Hi Hs. apply Hbc; [by apply Hab|done].
  - intros a o i r Hi [e He]. destruct (apply_op_cases a o)
      as [->|[(tid & wid & st & inp & now & _ & ->)
             |(t & d & now & ns & res & err & _ & _ & ->)]].
    + done.
    + simpl. by apply lookup_app_l_Some.
    + simpl. apply lookup_app_l_Some. unfold seal_states.
      rewrite list_lookup_fmap, Hi. simpl.
      rewrite decide_False; [done|]. intros (_ & _ & ?). congruence.
Qed.

Lemma sealed_events_final_witness :
  task_states
    (run_ops Scenario.db_processing
       [OpUpdate NoFault 200 "t1" "processing" (Some "first try") None;
        OpCreate NoFault 400 Example.t2_input;
        OpUpdate (StmtFault 2) 410 "t1" "done" None None;
        OpUpdate NoFault 450 "t2" "failed" None (Some Example.disk_full)])
  !! 0%nat = Some Scenario.initial_event.
Proof.
  apply (sealed_events_final Scenario.db_processing _ 0%nat
           Scenario.initial_event).
  - vm_compute. reflexivity.
  - exists 160. reflexivity.
Defined.

(** ** What a call leaves alone *)

Lemma find_task_transition_other t d now db new_state res error tid' :
  tid' ≠ task_id t →
  find_task tid' (transition t d now db new_state res error)
  = find_task tid' db.
Proof.
  intros Hne. unfold find_task. simpl. f_equal.
  apply filter_fmap_stable. intros x _.
  destruct (decide (task_id x = task_id t)); [|done].
  simpl. split; intros ?; congruence.
Qed.

Lemma find_data_transition_other t d now db new_state res error tid' :
  tid' ≠ task_id t →
  find_data tid' (transition t d now db new_state res error)
  = find_data tid' db.
Proof.
  intros Hne. unfold find_data. simpl. f_equal.
  apply filter_fmap_stable. intros x _.
  destruct (decide (td_task_id x = task_id t)) as [Hx|]; [|done].
  assert (td_task_id (payload_after (results_json d) (current_state t) res error x)
          = td_task_id x) as Hid
    by (unfold payload_after; by destruct (truthy_opt_dict error)).
  split; intros ?; congruence.
Qed.

(** X10. A call of [update_task_state] for one task, whatever its
    outcome, leaves every other task as it was: its row in [tasks], its
    payload row and its history. *)
Theorem update_frame f now db tid new_state res error other :
  other ≠ tid →
  find_task other (update_task_state f now db tid new_state res error).2
  = find_task other db
  ∧ find_data other (update_task_state f now db tid new_state res error).2
    = find_data other db
  ∧ history (update_task_state f now db tid new_state res error).2 other
    = history db other.
Proof.
  intros Hne.
  destruct (update_cases f now db tid new_state res error)
    as [[_ ->]|(t & d & Ht & _ & ->)]; [done|].
  apply find_task_id in Ht. subst tid. simpl.
  split; [by apply find_task_transition_other|].
  split; [by apply find_data_transition_other|].
  by apply history_transition_other.
Qed.

Lemma update_frame_witness :
  find_task "t1"
    (update_task_state NoFault 450 Example.db_two "t2" "failed" None
       (Some Example.disk_full)).2
  = find_task "t1" Example.db_two
  ∧ find_data "t1"
      (update_task_state NoFault 450 Example.db_two "t2" "failed" None
         (Some Example.disk_full)).2
    = find_data "t1" Example.db_two
  ∧ history
      (update_task_state NoFault 450 Example.db_two "t2" "failed" None
         (Some Example.disk_full)).2 "t1"
    = history Example.db_two "t1".
Proof.
  apply (update_frame NoFault 450 Example.db_two "t2" "failed" None
           (Some Example.disk_full) "t1").
  discriminate.
Defined.

(** X11. [create_task] is all or nothing: when it returns, exactly one
    row was added to each of [tasks], [task_states] and [task_data], and
    the value returned is the [task_id] given; when it raises, whatever
    the statement that failed, the three tables are as they were. *)
Theorem create_all_or_nothing f now db inp :
  match (create_task f now db inp).1 with
  | Return o =>
      o = in_task_id inp ∧ is_Some o
      ∧ length (tasks (create_task f now db inp).2) = S (length (tasks db))
      ∧ length (task_states (create_task f now db inp).2)
        = S (length (task_states db))
      ∧ length (task_data (create_task f now db inp).2)
        = S (length (task_data db))
  | Raise _ => (create_task f now db inp).2 = db
  end.
Proof.
  destruct (create_cases f now db inp)
    as [[Hno Hdb]|(tid & wid & state & Htid & _ & _ & _ & _ & Hc)].
  - destruct (create_task f now db inp).1 as [o|e] eqn:Ho; [|done].
    by destruct (Hno o).
  - rewrite Hc. simpl. rewrite Htid, !length_app. simpl.
    repeat split; eauto; lia.
Qed.

(** X12. [update_task_state] adds no task and no payload row, whatever
    its outcome; it adds one event when it returns [True] and none
    otherwise. *)
Theorem update_row_counts f now db tid new_state res error :
  length (tasks (update_task_state f now db tid new_state res error).2)
  = length (tasks db)
  ∧ length (task_data (update_task_state f now db tid new_state res error).2)
    = length (task_data db)
  ∧ length
      (task_states (update_task_state f now db tid new_state res error).2)
    = match (update_task_state f now db tid new_state res error).1 with
      | Return true => S (length (task_states db))
      | _ => length (task_states db)
      end.
Proof.
  destruct (update_cases f now db tid new_state res error)
    as [[Hne ->]|(t & d & _ & _ & ->)].
  - repeat split.
    destruct (update_task_state f now db tid new_state res error).1
      as [[|]|]; done.
  - simpl. unfold seal_states. rewrite length_app, !length_fmap. simpl.
    repeat split. lia.
Qed.



(** ** Creation *)

(** X14. For a [task_data] whose keys are absent or carry values of the
    types of their columns (the inputs that [task_input] describes), in
    a reachable store and without a fault, [create_task] succeeds
    whenever [task_id], [workflow_id] and [state] are given, the two
    integers fit a 64-bit column and the id is not stored yet: it
    returns the id and appends the task in that state, not complete and
    without error, its open first event, and its payload. *)
Theorem create_succeeds db now inp tid wid state :
  reachable db →
  in_task_id inp = Some tid → in_workflow_id inp = Some wid →
  in_state inp = Some state →
  int64 (default 3 (md_max_retries (in_metadata inp))) →
  int64 (default 120 (md_timeout_seconds (in_metadata inp))) →
  tid ∉ task_id <$> tasks db →
  create_task NoFault now db inp
  = (Return (Some tid), created tid wid state inp now db).
Proof.
  intros Hr Htid Hwid Hst Hm Ht Hfresh.
  pose proof (hinv_payload_ids db (reachable_history_inv db Hr)) as Hids.
  unfold create_task, create_body, insert_task, insert_state, insert_data,
    commit.
  unfold_txn. simpl. rewrite Htid, Hwid, Hst. unfold bindable.
  rewrite !bool_decide_eq_true_2 by done. simpl.
  unfold pk_taken. rewrite bool_decide_eq_false_2 by done. simpl.
  rewrite Hids. rewrite bool_decide_eq_false_2 by done. done.
Qed.

Lemma create_succeeds_witness :
  create_task NoFault 400 Example.db_done Example.t2_input
  = (Return (Some "t2"),
     created "t2" "wf-2" "initial" Example.t2_input 400 Example.db_done).
Proof.
  apply (create_succeeds Example.db_done 400 Example.t2_input "t2" "wf-2"
           "initial").
  - apply reachable_db_done.
  - reflexivity.
  - reflexivity.
  - reflexivity.
  - unfold int64. simpl. lia.
  - unfold int64. simpl. lia.
  - vm_compute. intros H. apply list_elem_of_singleton in H. discriminate H.
Defined.

(** X15. [create_task] raises, and writes nothing, when [task_id],
    [workflow_id] or [state] is missing, and when the [task_id] is
    already stored; without a fault the exception is the constraint
    violation. *)
Theorem create_rejected f now db inp :
  in_task_id inp = None ∨ in_workflow_id inp = None ∨ in_state inp = None
  ∨ (∃ tid, in_task_id inp = Some tid ∧ tid ∈ task_id <$> tasks db) →
  (∃ e, create_task f now db inp = (Raise e, db))
  ∧ (int64 (default 3 (md_max_retries (in_metadata inp))) →
     int64 (default 120 (md_timeout_seconds (in_metadata inp))) →
     create_task NoFault now db inp = (Raise IntegrityError, db)).
Proof.
  intros Hbad. split.
  - destruct (create_cases f now db inp)
      as [[Hno Hdb]|(tid & wid & state & Htid & Hwid & Hst & Hfresh & _)].
    + destruct (create_task f now db inp) as [[o|e] db'] eqn:Hc; simpl in *.
      * by destruct (Hno o).
      * subst db'. eauto.
    + exfalso. destruct Hbad as [?|[?|[?|(tid' & ? & ?)]]]; congruence.
  - intros Hm Ht.
    unfold create_task, create_body, insert_task, insert_state, insert_data,
      commit.
    unfold_txn. simpl. unfold bindable.
    rewrite !bool_decide_eq_true_2 by done. simpl.
    destruct (in_task_id inp) as [tid|] eqn:Htid,
      (in_workflow_id inp) as [wid|] eqn:Hwid,
      (in_state inp) as [state|] eqn:Hst; simpl; try done.
    destruct Hbad as [?|[?|[?|(tid' & [= <-] & Hin)]]]; try done.
    unfold pk_taken. by rewrite bool_decide_eq_true_2.
Qed.

Lemma create_rejected_witness :
  (∃ e, create_task (StmtFault 3) 500 Example.db_two Example.t2_input
        = (Raise e, Example.db_two))
  ∧ create_task NoFault 500 Example.db_two Example.t2_input
    = (Raise IntegrityError, Example.db_two).
Proof.
  destruct (create_rejected (StmtFault 3) 500 Example.db_two
              Example.t2_input) as [H1 H2].
  - right. right. right. exists "t2". split; [reflexivity|].
    vm_compute. apply list_elem_of_further, list_elem_of_here.
  - split; [exact H1|]. apply H2; unfold int64; simpl; lia.
Defined.

(** ** Reading back *)

Global Instance entered_le_total : Total entered_le.
Proof. intros a b. unfold entered_le. lia. Qed.

Global Instance entered_le_trans : Transitive entered_le.
Proof. intros a b c. unfold entered_le. lia. Qed.

Lemma head_filter_app_fresh {A} (key : A → string) tid (l : list A) x :
  tid ∉ key <$> l → key x = tid →
  head (filter (λ a, key a = tid) (l ++ [x])) = Some x.
Proof.
  intros Hfresh Hx. rewrite filter_app, filter_none.
  - by rewrite filter_cons, decide_True.
  - intros a Ha Hk. apply Hfresh. rewrite <- Hk.
    apply list_elem_of_fmap. eauto.
Qed.

(** X16. What [create_task] stored is what [get_task] returns: in a
    reachable store, after a creation that returned the id, [get_task]
    for that id returns the task in its initial state, not complete and
    without error, with the payload given and a history of one event that
    is open and was entered at the time of creation. *)
Theorem create_then_get f now db inp tid db' :
  reachable db →
  create_task f now db inp = (Return (Some tid), db') →
  ∃ wid state,
    in_workflow_id inp = Some wid ∧ in_state inp = Some state
    ∧ get_task NoFault db' tid
      = Return (detail_dict (new_task tid wid state inp now)
                  (new_payload tid inp)
                  [StateRow (next_id (task_states db)) tid state now
                     None None None false None]).
Proof.
  intros Hr Hc. pose proof (reachable_inv db Hr) as Hinv.
  destruct (create_cases f now db inp)
    as [[Hno _]|(tid' & wid & state & Htid & Hwid & Hst & Hf & Hfd & Hc')].
  - rewrite Hc in Hno. by destruct (Hno (Some tid)).
  - rewrite Hc in Hc'. injection Hc' as <- ->.
    exists wid, state. split; [done|]. split; [done|].
    rewrite (get_task_found _ tid (new_task tid wid state inp now)
               (new_payload tid inp)).
    + change (filter _ (task_states (created tid wid state inp now db)))
        with (history (created tid wid state inp now db) tid).
      by rewrite history_created_self.
    + unfold find_task. simpl. by apply (head_filter_app_fresh task_id).
    + unfold find_data. simpl. by apply (head_filter_app_fresh td_task_id).
Qed.

Lemma create_then_get_witness :
  ∃ wid state,
    in_workflow_id Example.t2_input = Some wid
    ∧ in_state Example.t2_input = Some state
    ∧ get_task NoFault Example.db_two "t2"
      = Return (detail_dict (new_task "t2" wid state Example.t2_input 400)
                  (new_payload "t2" Example.t2_input)
                  [StateRow (next_id (task_states Example.db_done)) "t2"
                     state 400 None None None false None]).
Proof.
  apply (create_then_get NoFault 400 Example.db_done Example.t2_input "t2"
           Example.db_two).
  - apply reachable_db_done.
  - vm_compute. reflexivity.
Defined.

Lemma get_task_sorted_history db t :
  store_inv db → t ∈ tasks db →
  ∃ d, find_data (task_id t) db = Some d
       ∧ get_task NoFault db (task_id t)
         = Return (detail_dict t d
                     (sort_by entered_le (history db (task_id t)))).
Proof.
  intros Hinv Ht. destruct (find_data_stored db t Hinv Ht) as [d Hd].
  exists d. split; [done|].
  apply get_task_found; [by apply find_task_stored|done].
Qed.

(** X17. In a reachable store and without a fault, [get_task] of a
    stored task returns its row and its payload, and as [state_history]
    the events of that task and of no other, each once, in ascending
    order of [entered_at]. *)
Theorem get_task_history db t :
  reachable db → t ∈ tasks db →
  ∃ d h,
    find_data (task_id t) db = Some d
    ∧ get_task NoFault db (task_id t) = Return (detail_dict t d h)
    ∧ h ≡ₚ history db (task_id t)
    ∧ StronglySorted entered_le h.
Proof.
  intros Hr Ht.
  destruct (get_task_sorted_history db t (reachable_inv db Hr) Ht)
    as (d & Hd & Hget).
  exists d, (sort_by entered_le (history db (task_id t))).
  split; [done|]. split; [done|].
  split; [apply sort_by_Permutation|].
  apply StronglySorted_sort_by; apply _.
Qed.

Lemma get_task_history_witness :
  ∃ d h,
    find_data "t1" Example.db_failed = Some d
    ∧ get_task NoFault Example.db_failed "t1"
      = Return (detail_dict Example.t1_done d h)
    ∧ h ≡ₚ history Example.db_failed "t1"
    ∧ StronglySorted entered_le h.
Proof.
  apply (get_task_history Example.db_failed Example.t1_done).
  - apply reachable_db_failed.
  - vm_compute. apply list_elem_of_here.
Defined.

(** ** Errors of a transition *)

(** X18. After a transition that returned [True]: when its [error] is a
    non-empty mapping, the payload's [error_details] is that mapping
    (the last error wins) and the event opened carries the error flag
    and the [message] of the mapping; when it is absent or empty, the
    event opened carries no error and [error_details] keeps what an
    earlier transition left there. *)
Theorem error_details_last_wins f now db tid new_state res error db' d :
  find_data tid db = Some d →
  update_task_state f now db tid new_state res error = (Return true, db') →
  ∃ d' opened,
    find_data tid db' = Some d'
    ∧ last (history db' tid) = Some opened
    ∧ (∀ e, error = Some e → e ≠ ∅ →
            error_details d' = Some e
            ∧ st_has_error opened = true
            ∧ error_message opened = bind_text (e !! "message"))
    ∧ (error = None ∨ error = Some ∅ →
       error_details d' = error_details d
       ∧ st_has_error opened = false
       ∧ error_message opened = None).
Proof.
  intros Hd Hrun.
  apply update_success in Hrun as (t & d0 & Ht & Hd0 & ->).
  rewrite Hd in Hd0. injection Hd0 as <-.
  pose proof (find_task_id _ _ _ Ht) as <-.
  rewrite find_data_transition, Hd, history_transition, last_snoc. simpl.
  eexists _, _. split; [done|]. split; [done|]. split.
  - intros e -> He. simpl. unfold payload_after. simpl.
    assert (truthy_dict e = true) as ->
      by (unfold truthy_dict; by rewrite bool_decide_eq_false_2).
    done.
  - intros [->| ->]; simpl; unfold payload_after; simpl; [done|].
    assert (truthy_dict (∅ : pydict) = false) as ->
      by (unfold truthy_dict; by rewrite bool_decide_eq_true_2).
    done.
Qed.

Lemma error_details_last_wins_witness :
  ∃ d' opened,
    find_data "t2" Example.db_failed = Some d'
    ∧ last (history Example.db_failed "t2") = Some opened
    ∧ error_details d' = Some Example.disk_full
    ∧ st_has_error opened = true
    ∧ error_message opened = Some "disk full".
Proof.
  destruct (error_details_last_wins NoFault 450 Example.db_two "t2" "failed"
              None (Some Example.disk_full) Example.db_failed
              (new_payload "t2" Example.t2_input))
    as (d' & opened & Hd' & Hlast & Herr & _).
  - vm_compute. reflexivity.
  - vm_compute. reflexivity.
  - exists d', opened. split; [exact Hd'|]. split; [exact Hlast|].
    apply (Herr Example.disk_full); [reflexivity|].
    intros H. apply (f_equal (λ m : pydict, m !! "message")) in H.
    vm_compute in H. discriminate H.
Defined.

(** ** Listing *)

Lemma filter_all {A} (P : A → Prop) `{!∀ x, Decision (P x)} (l : list A) :
  (∀ x, x ∈ l → P x) → filter P l = l.
Proof.
  induction l as [|a l IH]; intros Hl; [done|].
  rewrite filter_cons, decide_True by (apply Hl; left).
  f_equal. apply IH. intros x Hx. apply Hl. by right.
Qed.

Lemma sql_limit_all {A} limit (l : list A) :
  limit < 0 ∨ Z.of_nat (length l) ≤ limit → sql_limit limit l = l.
Proof.
  intros Hl. unfold sql_limit. destruct (decide (limit < 0)); [done|].
  apply take_ge. lia.
Qed.

(** X19. Nothing is lost below the limit: without a fault, when [limit]
    fits a 64-bit integer and is negative or at least the number of
    matching tasks, [list_tasks] returns a summary of every stored task
    that matches the filters, each once; with both filters absent or
    empty these are all the stored tasks. *)
Theorem list_tasks_complete db wf st limit :
  int64 limit →
  limit < 0
  ∨ Z.of_nat (length (filter (matches wf st) (tasks db))) ≤ limit →
  ∃ rows,
    list_tasks NoFault db wf st limit = Return (summary_dict <$> rows)
    ∧ rows ≡ₚ filter (matches wf st) (tasks db)
    ∧ (truthy_opt_str wf = false → truthy_opt_str st = false →
       rows ≡ₚ tasks db).
Proof.
  intros Hint Hlimit.
  exists (sort_by updated_ge (filter (matches wf st) (tasks db))).
  split.
  - rewrite list_tasks_nofault. unfold bindable.
    rewrite bool_decide_eq_true_2 by done. unfold list_rows.
    rewrite sql_limit_all; [done|].
    by rewrite (Permutation_length (sort_by_Permutation _ _)).
  - split; [apply sort_by_Permutation|].
    intros Hwf Hst. rewrite sort_by_Permutation.
    rewrite filter_all; [done|].
    intros t _. unfold matches. rewrite Hwf, Hst. by split.
Qed.

Lemma list_tasks_complete_witness :
  ∃ rows,
    list_tasks NoFault Example.db_failed (Some "") None (-1)
    = Return (summary_dict <$> rows)
    ∧ rows ≡ₚ filter (matches (Some "") None) (tasks Example.db_failed)
    ∧ rows ≡ₚ tasks Example.db_failed.
Proof.
  destruct (list_tasks_complete Example.db_failed (Some "") None (-1))
    as (rows & Hrun & Hperm & Hall).
  - unfold int64. lia.
  - left. lia.
  - exists rows. split; [exact Hrun|]. split; [exact Hperm|].
    apply Hall; reflexivity.
Defined.

(** X20. The task updated last comes first: without a fault, when one
    stored task has an [updated_at] later than every other and the limit
    is not zero, the unfiltered listing starts with the summary of that
    task. *)
Theorem list_tasks_latest_first db t limit :
  t ∈ tasks db →
  (∀ t', t' ∈ tasks db → t' ≠ t → updated_at t' < updated_at t) →
  int64 limit → limit ≠ 0 →
  ∃ rest,
    list_tasks NoFault db None None limit = Return (summary_dict t :: rest).
Proof.
  intros Ht Hlatest Hint Hlimit.
  rewrite list_tasks_nofault. unfold bindable.
  rewrite bool_decide_eq_true_2 by done. unfold list_rows.
  rewrite (filter_all (matches None None)) by (intros x _; by split).
  pose proof (sort_by_Permutation updated_ge (tasks db)) as Hperm.
  assert (StronglySorted updated_ge (sort_by updated_ge (tasks db)))
    as Hsorted by (apply StronglySorted_sort_by; apply _).
  destruct (sort_by updated_ge (tasks db)) as [|x l] eqn:Hs.
  { rewrite <- Hperm in Ht. by apply not_elem_of_nil in Ht. }
  assert (x = t) as ->.
  { destruct (decide (x = t)) as [|Hne]; [done|exfalso].
    assert (x ∈ tasks db) as Hx by (rewrite <- Hperm; left).
    assert (t ∈ l) as Htl.
    { rewrite <- Hperm in Ht. apply elem_of_cons in Ht as [|]; [|done].
      congruence. }
    apply StronglySorted_inv in Hsorted as [_ Hall].
    rewrite Forall_forall in Hall. specialize (Hall t Htl).
    specialize (Hlatest x Hx Hne). unfold updated_ge in Hall. lia. }
  unfold sql_limit. destruct (decide (limit < 0)); [by eexists|].
  destruct (Z.to_nat limit) as [|k] eqn:Hk; [lia|]. simpl. by eexists.
Qed.

Lemma list_tasks_latest_first_witness :
  ∃ rest,
    list_tasks NoFault Example.db_failed None None 1
    = Return (summary_dict Example.t2_failed :: rest).
Proof.
  apply (list_tasks_latest_first Example.db_failed Example.t2_failed 1).
  - vm_compute. apply list_elem_of_further, list_elem_of_here.
  - intros t' Ht' Hne. vm_compute in Ht'.
    apply elem_of_cons in Ht' as [->|Ht'].
    + reflexivity.
    + apply list_elem_of_singleton in Ht'. contradiction.
  - unfold int64. lia.
  - discriminate.
Defined.

(** ** The module-level manager *)

Lemma call_accessor_initialised files c m :
  call_accessor files c (Some m) = (Return m, Some m).
Proof. by destruct c. Qed.

Lemma call_accessor_cases files c :
  (∃ e, call_accessor files c None = (Raise e, None))
  ∨ (∃ m, call_accessor files c None = (Return m, Some m)).
Proof.
  destruct c as [f path|f env]; simpl; unfold init_db, get_db_manager;
    destruct (new_manager f files _); eauto.
Qed.

Lemma call_accessors_initialised files cs m r :
  r ∈ call_accessors files cs (Some m) → r = Return m.
Proof.
  induction cs as [|c cs IH]; simpl; [by intros ?%not_elem_of_nil|].
  rewrite call_accessor_initialised. simpl.
  intros [->|Hr]%elem_of_cons; [done|by apply IH].
Qed.

(** X21. There is one manager per process: in any sequence of [init_db]
    and [get_db_manager] calls, whatever paths, environment and faults,
    every call that returns gives the manager that the first successful
    call made (or the one already there), so the path given to a later
    [init_db] is ignored. *)
Theorem manager_singleton files cs st m :
  Return m ∈ call_accessors files cs st →
  (∀ m0, st = Some m0 → m = m0)
  ∧ ∀ m', Return m' ∈ call_accessors files cs st → m' = m.
Proof.
  intros Hm. split.
  - intros m0 ->. apply call_accessors_initialised in Hm. by injection Hm.
  - revert st Hm. induction cs as [|c cs IH]; intros st Hm m' Hm';
      [by apply not_elem_of_nil in Hm|].
    destruct st as [m0|].
    + apply call_accessors_initialised in Hm, Hm'. congruence.
    + simpl in Hm, Hm'.
      destruct (call_accessor_cases files c) as [[e Hc]|[m1 Hc]];
        rewrite Hc in Hm, Hm'; simpl in Hm, Hm';
        apply elem_of_cons in Hm as [Hm|Hm], Hm' as [Hm'|Hm'];
        try done; try (by eapply IH);
        repeat match goal with
               | H : _ ∈ call_accessors _ _ (Some _) |- _ =>
                   apply call_accessors_initialised in H
               end; congruence.
Qed.

Lemma manager_singleton_witness :
  (∀ m0, None = Some m0 → Manager "first.db" = m0)
  ∧ ∀ m', Return m' ∈ call_accessors Process.files Process.calls None →
          m' = Manager "first.db".
Proof.
  apply (manager_singleton Process.files Process.calls None
           (Manager "first.db")).
  vm_compute. apply list_elem_of_further, list_elem_of_here.
Defined.

(** ** The read endpoints *)

Lemma get_task_absent_fault f db tid :
  f ≠ ConnectFault → find_task tid db = None → get_task f db tid = Return [].
Proof.
  intros Hf Ht. unfold get_task, get_body, select_detail. unfold_txn.
  destruct f as [| |[|n]]; simpl; try done; by rewrite Ht.
Qed.

(** The dictionary of a stored task does not fit [TaskDetail]: the rows
    of its history carry [state_name], not the required [state]. *)
Lemma valid_detail_history t d r h :
  valid_detail (detail_dict t d (r :: h)) = false.
Proof.
  unfold valid_detail. apply andb_false_intro2. reflexivity.
Qed.

Lemma valid_summary_dict t : valid_summary (summary_dict t) = true.
Proof. unfold valid_summary. simpl. by destruct t as [?????????????[][]]. Qed.

Lemma history_stored db t :
  store_inv db → t ∈ tasks db →
  ∃ r h, sort_by entered_le (history db (task_id t)) = r :: h.
Proof.
  intros Hinv Ht.
  destruct (inv_open db Hinv t Ht) as (r & Hopen & _).
  assert (r ∈ history db (task_id t)) as Hr.
  { assert (r ∈ open_events db (task_id t)) as Hin
      by (rewrite Hopen; apply list_elem_of_here).
    apply open_events_elem in Hin as (Hin & Hid & _).
    apply list_elem_of_filter. done. }
  rewrite <- (sort_by_Permutation entered_le) in Hr.
  destruct (sort_by entered_le (history db (task_id t))) as [|r' h]; eauto.
  by apply not_elem_of_nil in Hr.
Qed.

(** X22. [GET /workflow/tasks/{task_id}] never answers with a task: with
    a manager at hand and a reachable store it answers 404 for a task
    that is not stored, and also for a stored task when a fault strikes
    one of the two statements of [get_task]; and for a stored task read
    without a fault the response does not validate against
    [TaskDetail], whose [StateTransition] requires the key [state] where
    the rows of the history carry [state_name], so that the client gets
    status 500.  [GET /workflow/tasks] answers with the summaries that
    [list_tasks] returned, the empty list when a fault struck its
    statement. *)
Theorem read_endpoints fc fo files env st m tid wf state limit :
  get_db_manager fc files env st = (Return m, Some m) →
  reachable (files (db_path m)) →
  (tid ∉ task_id <$> tasks (files (db_path m)) → fo ≠ ConnectFault →
   (api_get_task fc fo files env st tid).1
   = HTTPException 404
       (String.append "Task " (String.append tid " not found")))
  ∧ (tid ∈ task_id <$> tasks (files (db_path m)) →
     (fo = StmtFault 0 ∨ fo = StmtFault 1 →
      (api_get_task fc fo files env st tid).1
      = HTTPException 404
          (String.append "Task " (String.append tid " not found")))
     ∧ (fo = NoFault →
        (api_get_task fc fo files env st tid).1 = ResponseValidationError))
  ∧ (fo ≠ ConnectFault →
     ∃ l, list_tasks fo (files (db_path m)) wf state limit = Return l
          ∧ (api_list_tasks fc fo files env st wf state limit).1 = Respond l)
  ∧ (api_list_tasks fc (StmtFault 0) files env st wf state limit).1
    = Respond [].
Proof.
  intros Hm Hr. pose proof (reachable_inv _ Hr) as Hinv.
  unfold api_get_task, api_list_tasks. rewrite Hm.
  split; [|split; [|split]].
  - intros Hab Hfo. rewrite get_task_absent_fault; [done..|].
    by apply find_task_None.
  - intros [t [-> Ht]]%list_elem_of_fmap. split.
    + intros [-> | ->].
      * by rewrite get_task_fault.
      * by rewrite get_task_fault_history.
    + intros ->. destruct (find_data_stored _ t Hinv Ht) as [d Hd].
      rewrite (get_task_found _ (task_id t) t d);
        [|by apply find_task_stored|done].
      destruct (history_stored _ t Hinv Ht) as (r & h & Hh).
      unfold history in Hh. rewrite Hh.
      simpl. by rewrite valid_detail_history.
  - intros Hfo.
    destruct (list_tasks_rows fo (files (db_path m)) wf state limit Hfo)
      as (rows & Hrun).
    exists (summary_dict <$> rows). split; [done|]. rewrite Hrun. simpl.
    rewrite (proj2 (forallb_forall _ _)); [done|].
    intros s [t [-> _]]%list_elem_of_In%list_elem_of_fmap.
    apply valid_summary_dict.
  - by rewrite list_tasks_fault.
Qed.

Lemma read_endpoints_witness :
  (api_get_task NoFault (StmtFault 1) Process.files None None "t3").1
  = HTTPException 404 "Task t3 not found"
  ∧ (api_get_task NoFault (StmtFault 1) Process.files None None "t2").1
    = HTTPException 404 "Task t2 not found"
  ∧ (api_get_task NoFault NoFault Process.files None None "t2").1
    = ResponseValidationError
  ∧ (api_list_tasks NoFault (StmtFault 0) Process.files None None None None
       100).1 = Respond [].
Proof.
  assert (reachable (Process.files (db_path (Manager "marathon_agent.db"))))
    as Hr by apply reachable_db_failed.
  destruct (read_endpoints NoFault (StmtFault 1) Process.files None None
              (Manager "marathon_agent.db") "t3" None None 100 eq_refl Hr)
    as (Habsent & _ & _ & Hlist).
  destruct (read_endpoints NoFault (StmtFault 1) Process.files None None
              (Manager "marathon_agent.db") "t2" None None 100 eq_refl Hr)
    as (_ & Hfault & _).
  destruct (read_endpoints NoFault NoFault Process.files None None
              (Manager "marathon_agent.db") "t2" None None 100 eq_refl Hr)
    as (_ & Hfound & _).
  split.
  - apply Habsent; [|discriminate]. vm_compute.
    intros [H|H]%elem_of_cons; [discriminate H|].
    apply list_elem_of_singleton in H. discriminate H.
  - split.
    + apply Hfault; [|by right]. vm_compute.
      apply list_elem_of_further, list_elem_of_here.
    + split; [|exact Hlist]. apply Hfound; [|reflexivity]. vm_compute.
      apply list_elem_of_further, list_elem_of_here.
Defined.

(** ** Reading back a transition *)

(** X23. What a transition wrote is what [get_task] returns: in a
    reachable store, after [update_task_state] returned [True] for a
    stored task, [get_task] returns that task in the new state with
    [updated_at] the time of the call, the results mapping the
    transition left, and a history one event longer that holds the old
    events, the open one sealed, and the new event. *)
Theorem transition_then_get f now db t new_state res error db' :
  reachable db → t ∈ tasks db →
  update_task_state f now db (task_id t) new_state res error
  = (Return true, db') →
  ∃ t' d' h',
    get_task NoFault db' (task_id t) = Return (detail_dict t' d' h')
    ∧ current_state t' = new_state
    ∧ updated_at t' = now
    ∧ results d'
      = results_after (current_state t) res (results_of db (task_id t))
    ∧ h' ≡ₚ seal_states now res (task_id t) (current_state t)
              (history db (task_id t))
            ++ [new_event db (task_id t) new_state now error]
    ∧ length h' = S (length (history db (task_id t))).
Proof.
  intros Hr Ht Hrun. pose proof (reachable_inv db Hr) as Hinv.
  apply update_success in Hrun as (t0 & d & Ht0 & Hd & ->).
  rewrite (find_task_stored db t Hinv Ht) in Ht0. injection Ht0 as <-.
  eexists _, _, _. split.
  - apply get_task_found.
    + by rewrite find_task_transition, (find_task_stored db t Hinv Ht).
    + by rewrite find_data_transition, Hd.
  - change (filter _ (task_states (transition t d now db new_state res error)))
      with (history (transition t d now db new_state res error) (task_id t)).
    rewrite history_transition. simpl.
    split; [done|]. split; [done|]. split.
    { unfold results_of, payload_after. rewrite Hd, results_set_results.
      apply results_json_after. }
    split; [apply sort_by_Permutation|].
    rewrite (Permutation_length (sort_by_Permutation _ _)).
    rewrite length_app. unfold seal_states. rewrite length_fmap. simpl. lia.
Qed.

Lemma transition_then_get_witness :
  ∃ t' d' h',
    get_task NoFault Example.db_done "t1" = Return (detail_dict t' d' h')
    ∧ current_state t' = "done"
    ∧ updated_at t' = 300
    ∧ results d'
      = results_after "processing" (Some "finished")
          (results_of Scenario.db_retried "t1")
    ∧ h' ≡ₚ seal_states 300 (Some "finished") "t1" "processing"
              (history Scenario.db_retried "t1")
            ++ [new_event Scenario.db_retried "t1" "done" 300 None]
    ∧ length h' = S (length (history Scenario.db_retried "t1")).
Proof.
  apply (transition_then_get NoFault 300 Scenario.db_retried
           Scenario.t1_retried "done" (Some "finished") None
           Example.db_done).
  - apply reachable_db_retried.
  - apply t1_in_db_retried.
  - vm_compute. reflexivity.
Defined.

Lemma StronglySorted_entered_lt_le h :
  StronglySorted entered_lt h → StronglySorted entered_le h.
Proof.
  induction 1 as [|r h _ IH Hall]; constructor; [done|].
  eapply Forall_impl; [exact Hall|].
  intros x Hx. unfold entered_lt in Hx. unfold entered_le. lia.
Qed.

Lemma StronglySorted_entered_lt_inj h x y :
  StronglySorted entered_lt h → x ∈ h → y ∈ h →
  entered_at x = entered_at y → x = y.
Proof.
  induction 1 as [|r h _ IH Hall]; intros Hx Hy Heq.
  - by apply not_elem_of_nil in Hx.
  - rewrite Forall_forall in Hall. unfold entered_lt in Hall.
    apply elem_of_cons in Hx as [->|Hx], Hy as [->|Hy].
    + done.
    + specialize (Hall y Hy). lia.
    + specialize (Hall x Hx). lia.
    + by apply IH.
Qed.

(** X24. Timestamps have a resolution of one second and [get_task]
    orders the history by [entered_at]: when the events of a stored task
    were entered at strictly increasing seconds, the [state_history]
    returned is the history in the order the transitions were made. *)
Theorem get_task_history_in_order db t :
  reachable db → t ∈ tasks db →
  StronglySorted entered_lt (history db (task_id t)) →
  ∃ d, get_task NoFault db (task_id t)
       = Return (detail_dict t d (history db (task_id t))).
Proof.
  intros Hr Ht Hlt.
  destruct (get_task_sorted_history db t (reachable_inv db Hr) Ht)
    as (d & _ & Hget).
  exists d. rewrite Hget. do 2 f_equal.
  apply (StronglySorted_unique_strong entered_le).
  - intros x1 x2 Hx1 Hx2 H12 H21. rewrite sort_by_Permutation in Hx1.
    apply (StronglySorted_entered_lt_inj _ x1 x2 Hlt Hx1 Hx2).
    unfold entered_le in *. lia.
  - apply StronglySorted_sort_by; apply _.
  - by apply StronglySorted_entered_lt_le.
  - apply sort_by_Permutation.
Qed.

Lemma get_task_history_in_order_witness :
  ∃ d, get_task NoFault Example.db_failed "t1"
       = Return (detail_dict Example.t1_done d
                   (history Example.db_failed "t1")).
Proof.
  apply (get_task_history_in_order Example.db_failed Example.t1_done).
  - apply reachable_db_failed.
  - vm_compute. apply list_elem_of_here.
  - vm_compute. repeat constructor.
Defined.
